(** * Pimento editor runtime: hierarchy, selection and patch emission

    Shallow embedding of the editor module of the runtime (the file that
    defines [hash], [registerComponent], [NodeEditor] and [Editor]) and the
    properties of its specification that concern it.

    Conventions of the embedding:
    - a JavaScript string is the list of its UTF-16 code units
      ([str.charCodeAt(i)] is the i-th element, [str.length] the length);
    - a JavaScript number that is an integer of magnitude below 2^53 is a
      [Z]; every intermediate value of [hash] is such a number, so the
      floating point additions and subtractions there are exact;
    - [Map]s are finite maps ([gmap]); objects whose key order matters are
      association lists in own-key order;
    - a function that can throw returns a [result]. *)

From Stdlib Require Import ZArith List Lia Ascii String Decimal DecimalZ.
From stdpp Require Import base decidable option list countable gmap.

Local Open Scope Z_scope.
Set Warnings "-register-all".

(** ** JavaScript strings *)

Module JS.

(** UTF-16 code units. *)
Definition jsstring := list Z.

Definition wf_string (s : jsstring) : Prop := Forall (λ c, 0 ≤ c < 65536) s.

(** Literal strings of the source, written with their ASCII text. *)
Fixpoint lit (s : string) : jsstring :=
  match s with
  | EmptyString => []
  | String c s' => Z.of_N (N_of_ascii c) :: lit s'
  end.

(** A string is truthy when it is not empty. *)
Definition truthy_string (s : jsstring) : bool :=
  match s with [] => false | _ => true end.

(** [ToInt32]: reduction modulo 2^32 into the signed range. *)
Definition ToInt32 (z : Z) : Z := (z + 2 ^ 31) mod 2 ^ 32 - 2 ^ 31.

(** [x << n] on numbers: both operands are converted, the shift count is
    taken modulo 32 and the result is again a signed 32-bit integer. *)
Definition shl (x n : Z) : Z := ToInt32 (Z.shiftl (ToInt32 x) (n mod 32)).

(** Digits of [String(n)] for an integer-valued number [n] below 10^21 in
    magnitude: plain decimal notation, most significant digit first, with a
    leading minus sign for a negative number. *)
Fixpoint uint_codes (d : Decimal.uint) : jsstring :=
  match d with
  | Decimal.Nil => []
  | Decimal.D0 d => 48 :: uint_codes d
  | Decimal.D1 d => 49 :: uint_codes d
  | Decimal.D2 d => 50 :: uint_codes d
  | Decimal.D3 d => 51 :: uint_codes d
  | Decimal.D4 d => 52 :: uint_codes d
  | Decimal.D5 d => 53 :: uint_codes d
  | Decimal.D6 d => 54 :: uint_codes d
  | Decimal.D7 d => 55 :: uint_codes d
  | Decimal.D8 d => 56 :: uint_codes d
  | Decimal.D9 d => 57 :: uint_codes d
  end.

Definition String_of_number (z : Z) : jsstring :=
  match Z.to_int z with
  | Decimal.Pos d => uint_codes d
  | Decimal.Neg d => 45 :: uint_codes d
  end.

(** Reading a decimal numeral back: the value of a list of digit code
    units, [None] when some unit is not a digit. *)
Definition is_digit (c : Z) : bool := (48 <=? c) && (c <=? 57).

Fixpoint digits_value (acc : Z) (s : jsstring) : option Z :=
  match s with
  | [] => Some acc
  | c :: s' => if is_digit c then digits_value (10 * acc + (c - 48)) s' else None
  end.

Definition parse_decimal (s : jsstring) : option Z :=
  match s with
  | [] => None
  | _ => digits_value 0 s
  end.

End JS.
Import JS.

(** ** The identity function *)

(** [function hash(str)]: the loop body
    [hash = ((hash << 5) - hash + str.charCodeAt(i++)) << 0]. *)
Definition hash_step (hash c : Z) : Z := shl (shl hash 5 - hash + c) 0.

(** The state of the [while (i < str.length)] loop is the running hash and
    the code units from position [i] on. *)
Fixpoint hash_loop (hash : Z) (str : jsstring) : Z :=
  match str with
  | [] => hash
  | c :: rest => hash_loop (hash_step hash c) rest
  end.

Definition hash (str : jsstring) : jsstring :=
  String_of_number (hash_loop 0 str + 2147483647 + 1).

(** ** Values, exceptions and the data model *)

(** Identity of a heap object as the editor of one item can observe it:
    the item's own [nodeInfo] object, its own [children] array, a member
    that every plain object inherits from [Object.prototype], or any other
    object. *)
Inductive objref :=
  | ItemNodeInfo
  | ItemChildren
  | Inherited (name : jsstring)
  | OtherObject (n : nat).

(** Property values. Objects are known by their identity only, which is all
    that [===] and the top level of a diff look at; numbers are the
    integer-valued ones. *)
Inductive jsval :=
  | VUndefined
  | VNull
  | VBool (b : bool)
  | VNumber (z : Z)
  | VString (s : jsstring)
  | VObject (r : objref).

#[global] Instance objref_eq_dec : EqDecision objref.
Proof. solve_decision. Defined.

#[global] Instance jsval_eq_dec : EqDecision jsval.
Proof. solve_decision. Defined.

(** [a !== b] *)
Definition strict_ne (a b : jsval) : bool := negb (bool_decide (a = b)).

(** [Object(a) !== a]: [a] is not an object. *)
Definition is_primitive (a : jsval) : bool :=
  match a with VObject _ => false | _ => true end.

(** [a ?? b] *)
Definition nullish (a b : jsval) : jsval :=
  match a with VUndefined | VNull => b | _ => a end.

(** What a thrown exception carries: [invariant(cond, format, ...args)]
    throws an error built from the format and its arguments. *)
Inductive Error :=
  | InvariantViolation (format : jsstring) (args : list jsstring).

Inductive result (A : Type) :=
  | Ok (a : A)
  | Throw (e : Error).
Arguments Ok {A} a.
Arguments Throw {A} e.

Definition bind {A B} (m : result A) (k : A → result B) : result B :=
  match m with
  | Ok a => k a
  | Throw e => Throw e
  end.

Notation "'let!' x := m 'in' k" := (bind m (λ x, k))
  (at level 10, x name, m at level 100, k at level 200).

(** [invariant(value, format, ...args)] where [value] is an object or
    [undefined]. *)
Definition invariant {A} (value : option A) (format : jsstring)
    (args : list jsstring) : result A :=
  match value with
  | Some a => Ok a
  | None => Throw (InvariantViolation format args)
  end.

(** A component reference: [string | React.ComponentType]. A component
    type is a function, known by its identity. *)
Inductive ComponentRef :=
  | ComponentName (name : jsstring)
  | ComponentType (id : nat).

#[global] Instance ComponentRef_eq_dec : EqDecision ComponentRef.
Proof. solve_decision. Defined.

#[global] Instance ComponentRef_countable : Countable ComponentRef.
Proof.
  refine (inj_countable'
    (λ c, match c with ComponentName s => inl s | ComponentType i => inr i end)
    (λ x, match x with inl s => ComponentName s | inr i => ComponentType i end) _).
  by intros [].
Defined.

(** [NodeInfo] is declared in the runtime's internal module; its fields are
    the ones the editor reads. *)
Inductive AttributeKind := Static | Dynamic.

#[global] Instance AttributeKind_eq_dec : EqDecision AttributeKind.
Proof. solve_decision. Defined.

Record Attribute := {
  name : jsstring;
  kind : AttributeKind;
  value : jsval
}.

Record NodeInfo := {
  jsxTagName : jsstring;
  component : option ComponentRef;
  attributes : list Attribute
}.

(** The node registry [modules]: a map from module id to a record whose
    [nodes] maps node ids to [NodeInfo]. *)
Record ModuleInfo := { nodes : gmap jsstring NodeInfo }.

Inductive HierarchyItem := {
  nodeInfo : NodeInfo;
  moduleId : jsstring;
  nodeId : jsstring;
  children : list HierarchyItem
}.

(** [getItemId]: the hash of the template string
    [`${item.moduleId}:${item.nodeId}`]. *)
Definition identity (moduleId nodeId : jsstring) : jsstring :=
  hash (moduleId ++ lit ":" ++ nodeId).

Definition getItemId (item : HierarchyItem) : jsstring :=
  identity (moduleId item) (nodeId item).

Definition getItemLabel (item : HierarchyItem) : jsstring :=
  jsxTagName (nodeInfo item).

(** ** The rendered tree *)

(** A child node of the canvas. [elm instanceof HTMLElement] holds for the
    first constructor only; elements of other namespaces (SVG, MathML) are
    elements with attributes and children but not [HTMLElement]s; text and
    comment nodes have neither. *)
Inductive ChildNode :=
  | HTMLElement (attrs : list (jsstring * jsstring)) (childNodes : list ChildNode)
  | ForeignElement (attrs : list (jsstring * jsstring)) (childNodes : list ChildNode)
  | CharacterData (data : jsstring).

(** [elm.getAttribute(name)]: the value of the attribute, [null] if absent. *)
Fixpoint getAttribute (attrs : list (jsstring * jsstring)) (name : jsstring)
    : option jsstring :=
  match attrs with
  | [] => None
  | (n, v) :: rest => if decide (n = name) then Some v else getAttribute rest name
  end.

(** The test [moduleId && nodeId] of two attribute values. *)
Definition markers (attrs : list (jsstring * jsstring)) : option (jsstring * jsstring) :=
  match getAttribute attrs (lit "data-mui-live-module-id"),
        getAttribute attrs (lit "data-mui-live-node-id") with
  | Some m, Some n =>
      if truthy_string m && truthy_string n then Some (m, n) else None
  | _, _ => None
  end.

(** [modules.get(moduleId)?.nodes.get(nodeId)] *)
Definition lookupNodeInfo (modules : gmap jsstring ModuleInfo)
    (moduleId nodeId : jsstring) : option NodeInfo :=
  match modules !! moduleId with
  | Some m => nodes m !! nodeId
  | None => None
  end.

Section FindNodes.
Variable modules : gmap jsstring ModuleInfo.

(** One iteration of the [for (const elm of elms)] loop of [findNodes]:
    the items the iteration pushes on [nodes], or the exception it
    throws. The inner [walk] is [findNodes] on the child list. *)
Fixpoint visit (elm : ChildNode) : result (list HierarchyItem) :=
  match elm with
  | HTMLElement attrs childNodes =>
      let walk :=
        (fix walk (elms : list ChildNode) : result (list HierarchyItem) :=
           match elms with
           | [] => Ok []
           | e :: rest =>
               let! pushed := visit e in
               let! more := walk rest in
               Ok (pushed ++ more)
           end) in
      match markers attrs with
      | Some (moduleId, nodeId) =>
          let! nodeInfo :=
            invariant (lookupNodeInfo modules moduleId nodeId)
              (lit "nodeInfo is not defined for %s in %s") [nodeId; moduleId] in
          let! children := walk childNodes in
          Ok [ {| nodeInfo := nodeInfo; moduleId := moduleId;
                  nodeId := nodeId; children := children |} ]
      | None => walk childNodes
      end
  | ForeignElement _ _ => Ok []
  | CharacterData _ => Ok []
  end.

(** [findNodes(elms)] *)
Fixpoint findNodes (elms : list ChildNode) : result (list HierarchyItem) :=
  match elms with
  | [] => Ok []
  | e :: rest =>
      let! pushed := visit e in
      let! more := findNodes rest in
      Ok (pushed ++ more)
  end.
End FindNodes.

(** ** Selection *)

(** The body of the loop of [findItem] for one item: the item itself when
    its id is the selected one, else the first hit among its children. *)
Fixpoint findIn (selectedItemId : jsstring) (item : HierarchyItem)
    : option HierarchyItem :=
  if decide (getItemId item = selectedItemId) then Some item
  else
    (fix findItem (items : list HierarchyItem) : option HierarchyItem :=
       match items with
       | [] => None
       | i :: rest =>
           match findIn selectedItemId i with
           | Some found => Some found
           | None => findItem rest
           end
       end) (children item).

(** [findItem(items)] *)
Fixpoint findItem (selectedItemId : jsstring) (items : list HierarchyItem)
    : option HierarchyItem :=
  match items with
  | [] => None
  | i :: rest =>
      match findIn selectedItemId i with
      | Some found => Some found
      | None => findItem selectedItemId rest
      end
  end.

(** The memoised [selectedItem]: [null] when [selectedItemId] is falsy
    ([null] or the empty string), else [findItem(nodeTree)]. *)
Definition selectedItem (nodeTree : list HierarchyItem)
    (selectedItemId : option jsstring) : option HierarchyItem :=
  match selectedItemId with
  | None => None
  | Some id => if truthy_string id then findItem id nodeTree else None
  end.

(** ** The component property registry *)

(** An editor widget is a React component, known by its identity. *)
Definition EditorComponent := nat.

(** [propertyInfo.Editor] may be missing at run time ("Editor not found"). *)
Record PropertyInfo := { Editor : option EditorComponent }.

(** [properties] in [Object.entries] order. *)
Record ComponentInfo := { properties : list (jsstring * PropertyInfo) }.

(** [components.set(component, componentInfo)] *)
Definition registerComponent (component : ComponentRef)
    (componentInfo : ComponentInfo)
    (components : gmap ComponentRef ComponentInfo)
    : gmap ComponentRef ComponentInfo :=
  <[component := componentInfo]> components.

Definition DEFAULT_COMPONENT_INFO : ComponentInfo := {| properties := [] |}.

(** Truthiness of [value?.nodeInfo.component]: [null] and the empty string
    are falsy, a component function or a non-empty name is truthy. *)
Definition truthy_component (c : option ComponentRef) : bool :=
  match c with
  | None => false
  | Some (ComponentName s) => truthy_string s
  | Some (ComponentType _) => true
  end.

(** The lookup at the head of [NodeEditor]:
    [(component ? components.get(component) : null) ?? DEFAULT_COMPONENT_INFO] *)
Definition lookupComponentInfo (components : gmap ComponentRef ComponentInfo)
    (component : option ComponentRef) : ComponentInfo :=
  match component with
  | Some c =>
      if truthy_component (Some c)
      then default DEFAULT_COMPONENT_INFO (components !! c)
      else DEFAULT_COMPONENT_INFO
  | None => DEFAULT_COMPONENT_INFO
  end.

(** ** Plain objects and the structural diff *)

(** A plain object: its own enumerable string-keyed properties in
    [Object.keys] order (array indices first, ascending, then the other keys
    in creation order). *)
Definition jsobject := list (jsstring * jsval).

Fixpoint own (obj : jsobject) (key : jsstring) : option jsval :=
  match obj with
  | [] => None
  | (k, v) :: rest => if decide (k = key) then Some v else own rest key
  end.

(** The property names a plain object inherits from [Object.prototype]. *)
Definition Object_prototype_keys : list jsstring :=
  map lit [ "constructor"; "hasOwnProperty"; "isPrototypeOf";
            "propertyIsEnumerable"; "toLocaleString"; "toString"; "valueOf";
            "__proto__"; "__defineGetter__"; "__defineSetter__";
            "__lookupGetter__"; "__lookupSetter__" ]%string.

Definition inherited (key : jsstring) : bool :=
  bool_decide (key ∈ Object_prototype_keys).

(** [key in obj] *)
Definition has (obj : jsobject) (key : jsstring) : bool :=
  match own obj key with
  | Some _ => true
  | None => inherited key
  end.

(** [obj[key]] *)
Definition get (obj : jsobject) (key : jsstring) : jsval :=
  match own obj key with
  | Some v => v
  | None => if inherited key then VObject (Inherited key) else VUndefined
  end.

(** A key is an array index when it is the canonical decimal numeral of an
    integer below 2^32 - 1. *)
Definition array_index (key : jsstring) : option Z :=
  match parse_decimal key with
  | Some n =>
      if (n <? 2 ^ 32 - 1) && bool_decide (String_of_number n = key)
      then Some n else None
  | None => None
  end.

(** Creation of a new own property: an array index goes to its place among
    the indices in front, any other key to the end. *)
Fixpoint insert_index (n : Z) (key : jsstring) (v : jsval) (obj : jsobject)
    : jsobject :=
  match obj with
  | [] => [(key, v)]
  | (k, w) :: rest =>
      match array_index k with
      | Some m =>
          if m <? n then (k, w) :: insert_index n key v rest
          else (key, v) :: obj
      | None => (key, v) :: obj
      end
  end.

Fixpoint overwrite (key : jsstring) (v : jsval) (obj : jsobject) : jsobject :=
  match obj with
  | [] => []
  | (k, w) :: rest =>
      if decide (k = key) then (k, v) :: rest
      else (k, w) :: overwrite key v rest
  end.

(** [{ ...obj, [key]: v }]: a fresh object with the own properties of
    [obj], then [key] defined on it. *)
Definition spread_with (obj : jsobject) (key : jsstring) (v : jsval) : jsobject :=
  match own obj key with
  | Some _ => overwrite key v obj
  | None =>
      match array_index key with
      | Some n => insert_index n key v obj
      | None => obj ++ [(key, v)]
      end
  end.

(** A path segment is an object key or an array position. *)
Inductive segment :=
  | Key (k : jsstring)
  | Index (i : Z).

Definition path := list segment.

Inductive operation :=
  | Remove (p : path)
  | Replace (p : path) (v : jsval)
  | Add (p : path) (v : jsval).

Definition op_path (o : operation) : path :=
  match o with
  | Remove p | Replace p _ | Add p _ => p
  end.

(** The three lists just-diff collects while it walks. *)
Record diffs := {
  removes : list operation;
  replaces : list operation;
  adds : list operation
}.

Definition no_diffs : diffs := {| removes := []; replaces := []; adds := [] |}.

Definition merge (a b : diffs) : diffs :=
  {| removes := removes a ++ removes b;
     replaces := replaces a ++ replaces b;
     adds := adds a ++ adds b |}.

(** [diff] is imported from the just-diff package, which is not part of
    the repository. It returns a list of JSON-patch operations. For two
    plain objects: a key of the first that is not [in] the second is a
    removal; a key of the second that is not [in] the first is an addition;
    a key of both whose values are not identical and not both objects is a
    replacement. The removals come first, in reverse order, then the
    replacements, then the additions. When the two values at a key are
    distinct objects it descends into them with the key appended to the
    path; that descent is the parameter [descend]. *)
Section JustDiff.
Variable descend : path → jsval → jsval → diffs.

(** First loop: a key of [obj1] that is not [in obj2] is removed. *)
Definition removed_keys (obj1 obj2 : jsobject) (basePath : path) : list operation :=
  flat_map (λ '(key, _),
    if has obj2 key then [] else [Remove (basePath ++ [Key key])]) obj1.

(** Second loop, one key of [obj2]. *)
Definition compare_key (obj1 obj2 : jsobject) (basePath : path)
    (key : jsstring) : diffs :=
  let obj1AtKey := get obj1 key in
  let obj2AtKey := get obj2 key in
  let p := basePath ++ [Key key] in
  if negb (has obj1 key) then
    {| removes := []; replaces := []; adds := [Add p obj2AtKey] |}
  else if strict_ne obj1AtKey obj2AtKey then
    if is_primitive obj1AtKey || is_primitive obj2AtKey then
      {| removes := []; replaces := [Replace p obj2AtKey]; adds := [] |}
    else descend p obj1AtKey obj2AtKey
  else no_diffs.

Definition getDiff (obj1 obj2 : jsobject) (basePath : path) : diffs :=
  fold_left (λ acc '(key, _), merge acc (compare_key obj1 obj2 basePath key))
    obj2
    {| removes := removed_keys obj1 obj2 basePath; replaces := []; adds := [] |}.

(** [diff(obj1, obj2)]: the removals in reverse, then the replacements,
    then the additions. *)
Definition diff (obj1 obj2 : jsobject) : list operation :=
  let d := getDiff obj1 obj2 [] in
  rev (removes d) ++ replaces d ++ adds d.
End JustDiff.

(** ** The node editor *)

(** A call of [saveNodeProperties(moduleId, nodeId, patches)]. *)
Record SaveCall := {
  call_moduleId : jsstring;
  call_nodeId : jsstring;
  call_patches : list operation
}.

(** The state the editor lives in: its two React state cells and the calls
    made so far to the persistence interface. *)
Record World := {
  nodeTree : list HierarchyItem;
  selectedItemId : option jsstring;
  saved : list SaveCall
}.

Definition saveNodeProperties (moduleId nodeId : jsstring)
    (patches : list operation) (w : World) : World :=
  {| nodeTree := nodeTree w;
     selectedItemId := selectedItemId w;
     saved := saved w ++ [ {| call_moduleId := moduleId;
                              call_nodeId := nodeId;
                              call_patches := patches |} ] |}.

(** The item as the plain object that [{ ...value }] and [diff] see: the
    four own properties in the order of the literal that created it. *)
Definition item_object (item : HierarchyItem) : jsobject :=
  [ (lit "nodeInfo", VObject ItemNodeInfo);
    (lit "moduleId", VString (moduleId item));
    (lit "nodeId", VString (nodeId item));
    (lit "children", VObject ItemChildren) ].

(** What [NodeEditor] renders for one registered property. *)
Record EditorElement := {
  element_type : EditorComponent;
  value_prop : jsval;
  onChange_prop : jsval → World → World
}.

Record PropertyRow := {
  row_key : jsstring;
  row_editor : option EditorElement
}.

Section NodeEditor.
Variable descend : path → jsval → jsval → diffs.
Variable components : gmap ComponentRef ComponentInfo.

(** [handleChange(key)(newFieldValue)] *)
Definition handleChange (value : HierarchyItem) (key : jsstring)
    (newFieldValue : jsval) (w : World) : World :=
  let newValue := spread_with (item_object value) key newFieldValue in
  let patches := diff descend (item_object value) newValue in
  saveNodeProperties (moduleId value) (nodeId value) patches w.

(** [value.nodeInfo.attributes.filter(static).find(name === key)?.value] *)
Definition attributeValue (item : HierarchyItem) (key : jsstring) : jsval :=
  match find (λ attr, bool_decide (name attr = key))
          (filter (λ attr, kind attr = Static) (attributes (nodeInfo item))) with
  | Some attr => value attr
  | None => VUndefined
  end.

Definition NodeEditor (item : HierarchyItem) : list PropertyRow :=
  let componentInfo := lookupComponentInfo components (component (nodeInfo item)) in
  map (λ '(key, propertyInfo),
    {| row_key := key;
       row_editor :=
         match Editor propertyInfo with
         | Some E =>
             Some {| element_type := E;
                     value_prop := nullish (attributeValue item key) VNull;
                     onChange_prop := handleChange item key |}
         | None => None
         end |})
    (properties componentInfo).
End NodeEditor.

(** ** The editor *)

(** The callback of the mutation observer:
    [setNodeTree(findNodes(canvasRef.current.childNodes))]. An exception of
    [findNodes] leaves the callback before the state is set. *)
Definition onMutation (modules : gmap jsstring ModuleInfo)
    (canvas : list ChildNode) (w : World) : result World :=
  let! forest := findNodes modules canvas in
  Ok {| nodeTree := forest; selectedItemId := selectedItemId w; saved := saved w |}.

(** [onSelectedItemsChange]: [setSelectedItemId(item)] *)
Definition onSelectedItemsChange (item : option jsstring) (w : World) : World :=
  {| nodeTree := nodeTree w; selectedItemId := item; saved := saved w |}.

(** The right-hand panel: [selectedItem ? <NodeEditor .../> : null]. *)
Definition propertyPanel (descend : path → jsval → jsval → diffs)
    (components : gmap ComponentRef ComponentInfo) (w : World)
    : option (list PropertyRow) :=
  match selectedItem (nodeTree w) (selectedItemId w) with
  | Some item => Some (NodeEditor descend components item)
  | None => None
  end.

(** ** Notions used in the statements *)

(** The items of a forest in pre-order: an item, then its descendants,
    then its later siblings. *)
Fixpoint preorder_item (item : HierarchyItem) : list HierarchyItem :=
  item ::
  (fix go (items : list HierarchyItem) : list HierarchyItem :=
     match items with
     | [] => []
     | i :: rest => preorder_item i ++ go rest
     end) (children item).

Fixpoint preorder (items : list HierarchyItem) : list HierarchyItem :=
  match items with
  | [] => []
  | i :: rest => preorder_item i ++ preorder rest
  end.

Definition has_id (id : jsstring) (item : HierarchyItem) : bool :=
  bool_decide (getItemId item = id).

(** The [HTMLElement]s the walk of [findNodes] tests for markers, in the
    order it meets them: those of the list and, below them, the ones all of
    whose ancestors in the list are [HTMLElement]s. *)
Fixpoint walked_from (elm : ChildNode) : list ChildNode :=
  match elm with
  | HTMLElement attrs childNodes =>
      elm ::
      (fix go (elms : list ChildNode) : list ChildNode :=
         match elms with
         | [] => []
         | e :: rest => walked_from e ++ go rest
         end) childNodes
  | ForeignElement _ _ => []
  | CharacterData _ => []
  end.

Fixpoint walked (elms : list ChildNode) : list ChildNode :=
  match elms with
  | [] => []
  | e :: rest => walked_from e ++ walked rest
  end.

(** The identity of a node whose markers have no entry in the registry. *)
Definition violation (modules : gmap jsstring ModuleInfo) (node : ChildNode)
    : option (jsstring * jsstring) :=
  match node with
  | HTMLElement attrs _ =>
      match markers attrs with
      | Some (m, n) =>
          match lookupNodeInfo modules m n with
          | Some _ => None
          | None => Some (m, n)
          end
      | None => None
      end
  | _ => None
  end.

Fixpoint first_violation (modules : gmap jsstring ModuleInfo)
    (nodes : list ChildNode) : option (jsstring * jsstring) :=
  match nodes with
  | [] => None
  | node :: rest =>
      match violation modules node with
      | Some mn => Some mn
      | None => first_violation modules rest
      end
  end.

Definition nodeInfo_error (moduleId nodeId : jsstring) : Error :=
  InvariantViolation (lit "nodeInfo is not defined for %s in %s") [nodeId; moduleId].

(** The outcome of the walk: it throws for the first walked element whose
    markers the registry does not know, and returns a forest when there is
    none. *)
Definition outcome (modules : gmap jsstring ModuleInfo) (nodes : list ChildNode)
    (r : result (list HierarchyItem)) : Prop :=
  match first_violation modules nodes with
  | Some (m, n) => r = Throw (nodeInfo_error m n)
  | None => ∃ forest, r = Ok forest
  end.

(** The attributes and children of a node, and the two kinds of element. *)
Definition node_attrs (node : ChildNode) : list (jsstring * jsstring) :=
  match node with
  | HTMLElement attrs _ | ForeignElement attrs _ => attrs
  | CharacterData _ => []
  end.

Definition node_children (node : ChildNode) : list ChildNode :=
  match node with
  | HTMLElement _ childNodes | ForeignElement _ childNodes => childNodes
  | CharacterData _ => []
  end.

Definition is_element (node : ChildNode) : bool :=
  match node with CharacterData _ => false | _ => true end.

Definition is_HTMLElement (node : ChildNode) : bool :=
  match node with HTMLElement _ _ => true | _ => false end.

(** Every node below a list of nodes, at any depth and of any kind. *)
Fixpoint subtree (elm : ChildNode) : list ChildNode :=
  elm ::
  match elm with
  | HTMLElement _ childNodes =>
      (fix go (elms : list ChildNode) : list ChildNode :=
         match elms with
         | [] => []
         | e :: rest => subtree e ++ go rest
         end) childNodes
  | ForeignElement _ childNodes =>
      (fix go (elms : list ChildNode) : list ChildNode :=
         match elms with
         | [] => []
         | e :: rest => subtree e ++ go rest
         end) childNodes
  | CharacterData _ => []
  end.

Fixpoint all_nodes (elms : list ChildNode) : list ChildNode :=
  match elms with
  | [] => []
  | e :: rest => subtree e ++ all_nodes rest
  end.

(** The two marker attributes of an element, when it has both. *)
Definition carried_markers (node : ChildNode) : option (jsstring * jsstring) :=
  match getAttribute (node_attrs node) (lit "data-mui-live-module-id"),
        getAttribute (node_attrs node) (lit "data-mui-live-node-id") with
  | Some m, Some n => Some (m, n)
  | _, _ => None
  end.

Definition carries_no_marker (node : ChildNode) : Prop :=
  getAttribute (node_attrs node) (lit "data-mui-live-module-id") = None
  ∧ getAttribute (node_attrs node) (lit "data-mui-live-node-id") = None.

(** A node is spliced when the walk gives it no item and puts the items of
    its children in its place; it is ignored when the walk goes on as if it
    were not there. *)
Definition spliced (modules : gmap jsstring ModuleInfo) (node : ChildNode) : Prop :=
  ∀ rest,
    findNodes modules (node :: rest) =
      (let! inner := findNodes modules (node_children node) in
       let! more := findNodes modules rest in
       Ok (inner ++ more)).

Definition ignored (modules : gmap jsstring ModuleInfo) (node : ChildNode) : Prop :=
  ∀ rest, findNodes modules (node :: rest) = findNodes modules rest.

(** A history of [registerComponent] calls, oldest first, and the entry a
    history stored last for a reference. *)
Definition register_all (calls : list (ComponentRef * ComponentInfo))
    (components : gmap ComponentRef ComponentInfo)
    : gmap ComponentRef ComponentInfo :=
  fold_left (λ acc '(c, info), registerComponent c info acc) calls components.

Fixpoint last_registered (c : ComponentRef)
    (calls : list (ComponentRef * ComponentInfo)) : option ComponentInfo :=
  match calls with
  | [] => None
  | (c', info) :: rest =>
      match last_registered c rest with
      | Some later => Some later
      | None => if decide (c' = c) then Some info else None
      end
  end.

(** The operations of the three lists in the order [diff] returns them. *)
Definition operations (d : diffs) : list operation :=
  rev (removes d) ++ replaces d ++ adds d.

(** The patch of an edit of one key, read off the item alone: the outcome
    of the comparison that just-diff makes at that key. *)
Definition key_patch (descend : path → jsval → jsval → diffs)
    (item : HierarchyItem) (key : jsstring) (v : jsval) : list operation :=
  let old := get (item_object item) key in
  if negb (has (item_object item) key) then [Add [Key key] v]
  else if strict_ne old v then
    if is_primitive old || is_primitive v then [Replace [Key key] v]
    else operations (descend [Key key] old v)
  else [].

(** The contract of just-diff's descent that the statements rely on: the
    operations it reports lie at or below the path it was given. *)
Definition descends_below (descend : path → jsval → jsval → diffs) : Prop :=
  ∀ p a b op, op ∈ operations (descend p a b) → p `prefix_of` op_path op.

(** ** Concrete data *)

(** A concrete registry and rendered trees used in the examples below. *)
Module Examples.

Definition Button : ComponentRef := ComponentType 0.

Definition ColorEditor : EditorComponent := 7%nat.

Definition button_info : NodeInfo :=
  {| jsxTagName := lit "Button";
     component := Some Button;
     attributes :=
       [ {| name := lit "color"; kind := Static; value := VString (lit "red") |} ] |}.

(** One module [App.tsx] with nodes [n1] and [n2]. *)
Definition modules : gmap jsstring ModuleInfo :=
  {[ lit "App.tsx" :=
       {| nodes := <[ lit "n2" := button_info ]> {[ lit "n1" := button_info ]} |} ]}.

Definition marked (nodeId : string) : list (jsstring * jsstring) :=
  [ (lit "data-mui-live-module-id", lit "App.tsx");
    (lit "data-mui-live-node-id", lit nodeId) ].

Definition item (nodeId : string) (children : list HierarchyItem) : HierarchyItem :=
  {| nodeInfo := button_info; moduleId := lit "App.tsx";
     nodeId := lit nodeId; children := children |}.

(** [<div><button .. n1/>text<button .. n2/></div>] *)
Definition wrapper : ChildNode :=
  HTMLElement [(lit "class", lit "box")]
    [ HTMLElement (marked "n1") [];
      CharacterData (lit "text");
      HTMLElement (marked "n2") [] ].

(** [<svg><foreignObject><button .. n1/></foreignObject></svg>] *)
Definition foreignObject : ChildNode :=
  ForeignElement [] [ HTMLElement (marked "n1") [] ].

Definition svg_wrapper : ChildNode := ForeignElement [] [ foreignObject ].

(** [<svg .. n9/>]: an SVG element with both markers, unknown to the
    registry. *)
Definition svg_marked : ChildNode := ForeignElement (marked "n9") [].

(** [<button .. n9/>] nested in a [div]: an HTML element with both markers,
    unknown to the registry. *)
Definition unknown_button : ChildNode :=
  HTMLElement [] [ HTMLElement (marked "n1") []; HTMLElement (marked "n9") [] ].

(** The registration of the end-to-end scenario: one editable property
    [color] on [Button]. *)
Definition components : gmap ComponentRef ComponentInfo :=
  registerComponent Button
    {| properties := [ (lit "color", {| Editor := Some ColorEditor |}) ] |} ∅.

(** A descent that reports two distinct objects as one replacement. *)
Definition replace_whole (p : path) (a b : jsval) : diffs :=
  {| removes := []; replaces := [Replace p b]; adds := [] |}.

Definition initial : World :=
  {| nodeTree := []; selectedItemId := None; saved := [] |}.

(** The scenario: the button is rendered and observed, the user selects
    it, and the editor of the only row calls [onChange("blue")]. The result
    is the list of calls made to [saveNodeProperties]. *)
Definition scenario (descend : path → jsval → jsval → diffs)
    : option (list SaveCall) :=
  match onMutation modules [HTMLElement (marked "n1") []] initial with
  | Ok observed =>
      let selected :=
        onSelectedItemsChange (Some (identity (lit "App.tsx") (lit "n1"))) observed in
      match propertyPanel descend components selected with
      | Some [ {| row_key := _; row_editor := Some editor |} ] =>
          Some (saved (onChange_prop editor (VString (lit "blue")) selected))
      | _ => None
      end
  | Throw _ => None
  end.

Definition save_call (patches : list operation) : SaveCall :=
  {| call_moduleId := lit "App.tsx"; call_nodeId := lit "n1";
     call_patches := patches |}.

(** A module [m] with the two nodes [Aa] and [BB], their items, and a
    canvas that shows only [BB]. *)
Definition colliding_modules : gmap jsstring ModuleInfo :=
  {[ lit "m" :=
       {| nodes := <[ lit "BB" := button_info ]> {[ lit "Aa" := button_info ]} |} ]}.

Definition item_Aa : HierarchyItem :=
  {| nodeInfo := button_info; moduleId := lit "m"; nodeId := lit "Aa";
     children := [] |}.

Definition item_BB : HierarchyItem :=
  {| nodeInfo := button_info; moduleId := lit "m"; nodeId := lit "BB";
     children := [] |}.

Definition canvas_BB : list ChildNode :=
  [ HTMLElement [ (lit "data-mui-live-module-id", lit "m");
                  (lit "data-mui-live-node-id", lit "BB") ] [] ].

End Examples.

(** ** The claims that the code does not meet, as they are stated *)

(** The claim [C2] read on every element: whenever some element of the
    container, of any kind and at any depth, has both marker attributes and
    the registry has no entry for them, the rebuild throws. *)
Definition every_marked_element_is_checked : Prop :=
  ∀ (modules : gmap jsstring ModuleInfo) (canvas : list ChildNode)
    (node : ChildNode) (m n : jsstring),
    node ∈ all_nodes canvas →
    is_element node = true →
    carried_markers node = Some (m, n) →
    lookupNodeInfo modules m n = None →
    ∃ e, findNodes modules canvas = Throw e.

(** The claim [C3] read on every element: an element of any kind without
    marker attributes is spliced. *)
Definition every_unmarked_element_is_spliced : Prop :=
  ∀ (modules : gmap jsstring ModuleInfo) (node : ChildNode),
    is_element node = true → carries_no_marker node → spliced modules node.

(** The claim [C5] in its clause on rebuilds, read on nodes: when the
    selected node was in the tree and a rebuild gives a forest without any
    item of its [(moduleId, nodeId)] pair, the selection resolves to none. *)
Definition removal_clears_selection : Prop :=
  ∀ (modules : gmap jsstring ModuleInfo) (canvas : list ChildNode)
    (w w' : World) (gone : HierarchyItem),
    gone ∈ preorder (nodeTree w) →
    selectedItemId w = Some (getItemId gone) →
    onMutation modules canvas w = Ok w' →
    Forall (λ it, (moduleId it, nodeId it) ≠ (moduleId gone, nodeId gone))
      (preorder (nodeTree w')) →
    selectedItem (nodeTree w') (selectedItemId w') = None.

(** The claim [C6] read on every component reference: what was registered
    for a reference is what the lookup returns for it. *)
Definition every_reference_is_looked_up : Prop :=
  ∀ (components : gmap ComponentRef ComponentInfo) (c : ComponentRef)
    (info : ComponentInfo),
    lookupComponentInfo (registerComponent c info components) (Some c) = info.

(** The claim [C1] as stated: the scenario ends with one call whose patch
    is the replacement of [color]. *)
Definition scenario_saves_replace : Prop :=
  ∀ descend,
    Examples.scenario descend
    = Some [ Examples.save_call
               [ Replace [Key (lit "color")] (VString (lit "blue")) ] ].

(** ** Further notions *)

(** The base-31 polynomial of the code units, without any wrapping:
    [c0 * 31^(n-1) + ... + c(n-1)]. *)
Definition poly31 (str : jsstring) : Z :=
  fold_left (λ acc c, 31 * acc + c) str 0.

(** The [(moduleId, nodeId)] pair of an item. *)
Definition item_pair (item : HierarchyItem) : jsstring * jsstring :=
  (moduleId item, nodeId item).

(** The marker pairs of the elements of a list that have (truthy) ones. *)
Definition marked_pairs (nodes : list ChildNode) : list (jsstring * jsstring) :=
  omap (λ node, markers (node_attrs node)) nodes.

(** An item agrees with the registry: both its ids are non-empty and its
    [nodeInfo] is the registry's entry for them. *)
Definition from_registry (modules : gmap jsstring ModuleInfo)
    (item : HierarchyItem) : Prop :=
  moduleId item ≠ [] ∧ nodeId item ≠ []
  ∧ lookupNodeInfo modules (moduleId item) (nodeId item) = Some (nodeInfo item).

(** What a rebuild must produce for a list of walked elements. *)
Definition mirrors (modules : gmap jsstring ModuleInfo)
    (nodes : list ChildNode) (forest : list HierarchyItem) : Prop :=
  map item_pair (preorder forest) = marked_pairs nodes
  ∧ Forall (from_registry modules) (preorder forest).

(** One registry knows everything another knows. *)
Definition registry_included (modules modules' : gmap jsstring ModuleInfo) : Prop :=
  ∀ m n info,
    lookupNodeInfo modules m n = Some info →
    lookupNodeInfo modules' m n = Some info.

(** The attributes the editor of [key] can show: static and named [key]. *)
Definition shows (key : jsstring) (attr : Attribute) : bool :=
  bool_decide (kind attr = Static) && bool_decide (name attr = key).

(** The call that one edit makes. *)
Definition edit_call (descend : path → jsval → jsval → diffs)
    (item : HierarchyItem) (key : jsstring) (v : jsval) : SaveCall :=
  {| call_moduleId := moduleId item;
     call_nodeId := nodeId item;
     call_patches :=
       diff descend (item_object item) (spread_with (item_object item) key v) |}.

(** ** The toggle button select *)

Module Toggle.

(** An entry of [options]: a string, or an object [{ value, label? }]. *)
Inductive ToggleOption :=
  | OptionString (s : jsstring)
  | OptionObject (value : jsstring) (label : option jsstring).

(** [a || b] for an optional string [a]: [undefined] and the empty string
    are falsy. *)
Definition or_else (a : option jsstring) (b : jsstring) : jsstring :=
  match a with
  | Some s => if truthy_string s then s else b
  | None => b
  end.

Definition optionValue (option : ToggleOption) : jsstring :=
  match option with
  | OptionString s => s
  | OptionObject value _ => value
  end.

Definition optionLabel (option : ToggleOption) : jsstring :=
  or_else
    (match option with
     | OptionString s => Some s
     | OptionObject _ label => label
     end)
    (optionValue option).

(** [<ToggleButton key={optionValue} value={optionValue}>{optionLabel}] *)
Record ToggleButton := {
  button_key : jsstring;
  button_value : jsstring;
  button_children : jsstring
}.

Definition renderOption (option : ToggleOption) : ToggleButton :=
  {| button_key := optionValue option;
     button_value := optionValue option;
     button_children := optionLabel option |}.

(** The props of the component: the six it takes apart and [...rest]. *)
Record ToggleButtonSelectProps := {
  options : option (list ToggleOption);
  label : jsval;
  value : jsval;
  onChange : jsval;
  disabled : jsval;
  fullWidth : jsval;
  rest : jsobject
}.

(** The names that the destructuring takes out of [rest]. *)
Definition destructured : list jsstring :=
  map lit [ "options"; "label"; "value"; "onChange"; "disabled"; "fullWidth" ]%string.

(** The props written out on the button group, before [{...rest}]. *)
Definition explicit (p : ToggleButtonSelectProps) : jsobject :=
  [ (lit "color", VString (lit "primary"));
    (lit "value", value p);
    (lit "exclusive", VBool true);
    (lit "onChange", onChange p);
    (lit "aria-label", VString (lit "Platform"));
    (lit "disabled", disabled p);
    (lit "fullWidth", fullWidth p) ].

(** [{ ...target, ...source }] *)
Definition assign (target source : jsobject) : jsobject :=
  fold_left (λ acc '(k, v), spread_with acc k v) source target.

(** What the component renders: the children of the form label, the props
    of the button group other than [children], and its children, which are
    the buttons (they replace any [children] that came with [rest]). *)
Record Rendered := {
  formLabel : jsval;
  groupProps : jsobject;
  groupChildren : list ToggleButton
}.

Definition ToggleButtonSelect (p : ToggleButtonSelectProps) : Rendered :=
  {| formLabel := label p;
     groupProps :=
       filter (λ kv, kv.1 ≠ lit "children") (assign (explicit p) (rest p));
     groupChildren :=
       match options p with
       | Some opts => map renderOption opts
       | None => []
       end |}.

End Toggle.

(** ** The editor at work *)

(** The user changes the value in the editor of the row [key] of the
    panel: the [onChange] of that row is called. Without a panel, a row of
    that name or an editor in it there is nothing to change. *)
Definition panelChange (descend : path → jsval → jsval → diffs)
    (components : gmap ComponentRef ComponentInfo)
    (key : jsstring) (v : jsval) (w : World) : World :=
  match propertyPanel descend components w with
  | Some rows =>
      match find (λ row, bool_decide (row_key row = key)) rows with
      | Some {| row_key := _; row_editor := Some editor |} =>
          onChange_prop editor v w
      | _ => w
      end
  | None => w
  end.

(** Whether a component's registration has an editor for [key]. *)
Definition editable (info : ComponentInfo) (key : jsstring) : bool :=
  match find (λ p, bool_decide (p.1 = key)) (properties info) with
  | Some (_, {| Editor := Some _ |}) => true
  | _ => false
  end.

(** What can happen to a mounted editor: the observer reports a mutation
    of the canvas, the user selects an entry of the tree view, or the user
    changes a value in the panel. *)
Inductive Action :=
  | Mutated (canvas : list ChildNode)
  | Selected (item : option jsstring)
  | Edited (key : jsstring) (v : jsval).

Definition is_edit (a : Action) : bool :=
  match a with Edited _ _ => true | _ => false end.

(** One action. An exception of the observer's callback leaves the state
    as it was: [setNodeTree] is not reached. *)
Definition act (modules : gmap jsstring ModuleInfo)
    (descend : path → jsval → jsval → diffs)
    (components : gmap ComponentRef ComponentInfo)
    (a : Action) (w : World) : World :=
  match a with
  | Mutated canvas =>
      match onMutation modules canvas w with
      | Ok w' => w'
      | Throw _ => w
      end
  | Selected item => onSelectedItemsChange item w
  | Edited key v => panelChange descend components key v w
  end.

Definition run (modules : gmap jsstring ModuleInfo)
    (descend : path → jsval → jsval → diffs)
    (components : gmap ComponentRef ComponentInfo)
    (actions : list Action) (w : World) : World :=
  fold_left (λ acc a, act modules descend components a acc) actions w.

(** The forest after the mutations of a list of actions, and the selection
    after its selections. *)
Definition forest_after (modules : gmap jsstring ModuleInfo)
    (actions : list Action) (forest : list HierarchyItem) : list HierarchyItem :=
  fold_left (λ acc a,
    match a with
    | Mutated canvas =>
        match findNodes modules canvas with
        | Ok rebuilt => rebuilt
        | Throw _ => acc
        end
    | _ => acc
    end) actions forest.

Definition selection_after (actions : list Action) (selection : option jsstring)
    : option jsstring :=
  fold_left (λ acc a,
    match a with
    | Selected item => item
    | _ => acc
    end) actions selection.

(** ** The canvas without its scaffolding *)

(** The canvas with every node removed that gets no item: an unmarked
    [HTMLElement] gives way to its (stripped) children, a node that is not
    an [HTMLElement] goes with everything below it. *)
Fixpoint strip_node (elm : ChildNode) : list ChildNode :=
  match elm with
  | HTMLElement attrs childNodes =>
      let inner :=
        (fix go (elms : list ChildNode) : list ChildNode :=
           match elms with
           | [] => []
           | e :: rest => strip_node e ++ go rest
           end) childNodes in
      match markers attrs with
      | Some _ => [HTMLElement attrs inner]
      | None => inner
      end
  | ForeignElement _ _ => []
  | CharacterData _ => []
  end.

Fixpoint strip (elms : list ChildNode) : list ChildNode :=
  match elms with
  | [] => []
  | e :: rest => strip_node e ++ strip rest
  end.

Definition is_marked_HTMLElement (node : ChildNode) : bool :=
  match node with
  | HTMLElement attrs _ => bool_decide (is_Some (markers attrs))
  | _ => false
  end.

(** * Properties *)

(** ** Decimal numerals *)

Section Decimal.
Lemma uint_codes_digits (d : Decimal.uint) :
  Forall (λ c, is_digit c = true) (uint_codes d).
Proof. induction d; simpl; constructor; auto. Qed.

Lemma digits_value_acc (d : Decimal.uint) (acc : positive) :
  digits_value (Z.pos acc) (uint_codes d) = Some (Z.pos (Pos.of_uint_acc d acc)).
Proof.
  revert acc; induction d; intros acc; simpl; try reflexivity;
    rewrite <- IHd; f_equal; lia.
Qed.

Lemma digits_value_uint (d : Decimal.uint) :
  digits_value 0 (uint_codes d) = Some (Z.of_uint d).
Proof.
  unfold Z.of_uint.
  induction d; simpl; try reflexivity; try assumption;
    match goal with
    | |- digits_value ?k _ = _ =>
        let p := eval cbv in (Z.to_pos k) in
        change k with (Z.pos p); apply digits_value_acc
    end.
Qed.

Lemma uint_codes_nil (d : Decimal.uint) : uint_codes d = [] → d = Decimal.Nil.
Proof. destruct d; simpl; congruence. Qed.

(** The numeral of a non-negative integer: digits only, not empty, and
    its value is the integer. *)
Lemma String_of_number_nonneg (z : Z) :
  0 ≤ z →
  Forall (λ c, is_digit c = true) (String_of_number z)
  ∧ String_of_number z ≠ []
  ∧ parse_decimal (String_of_number z) = Some z.
Proof.
  intros Hz. unfold String_of_number.
  pose proof (DecimalZ.of_to z) as Hrt.
  destruct (Z.to_int z) as [d|d] eqn:Hd.
  - simpl in Hrt. split; [apply uint_codes_digits|].
    assert (Hne : uint_codes d ≠ []).
    { intros Hnil. apply uint_codes_nil in Hnil. subst d.
      destruct z; simpl in Hd, Hrt; discriminate. }
    split; [exact Hne|].
    unfold parse_decimal. destruct (uint_codes d) eqn:E; [congruence|].
    rewrite <- E, digits_value_uint. by rewrite Hrt.
  - exfalso. destruct z; simpl in Hd; try discriminate. lia.
Qed.
End Decimal.

Lemma wf_lit (s : string) : wf_string (lit s).
Proof.
  induction s as [|c s IH]; constructor; [|exact IH].
  pose proof (N_ascii_bounded c). lia.
Qed.

Lemma wf_digits (s : jsstring) :
  Forall (λ c, is_digit c = true) s → wf_string s.
Proof.
  intros H. eapply Forall_impl; [exact H|]. intros c Hc. unfold is_digit in Hc.
  apply andb_true_iff in Hc as [?%Z.leb_le ?%Z.leb_le]. lia.
Qed.

(** ** The 32-bit rolling hash *)

Section Hash.
Lemma ToInt32_range (z : Z) : - 2 ^ 31 ≤ ToInt32 z ≤ 2 ^ 31 - 1.
Proof. unfold ToInt32. pose proof (Z.mod_pos_bound (z + 2 ^ 31) (2 ^ 32)). lia. Qed.

Lemma ToInt32_id (z : Z) : - 2 ^ 31 ≤ z ≤ 2 ^ 31 - 1 → ToInt32 z = z.
Proof. intros H. unfold ToInt32. rewrite Z.mod_small; lia. Qed.

Lemma shl_range (x n : Z) : - 2 ^ 31 ≤ shl x n ≤ 2 ^ 31 - 1.
Proof. apply ToInt32_range. Qed.

Lemma hash_step_range (h c : Z) : - 2 ^ 31 ≤ hash_step h c ≤ 2 ^ 31 - 1.
Proof. apply shl_range. Qed.

(** On a 32-bit accumulator the step is [31 * hash + c], wrapped. *)
Lemma hash_step_spec (h c : Z) :
  - 2 ^ 31 ≤ h ≤ 2 ^ 31 - 1 → hash_step h c = ToInt32 (31 * h + c).
Proof.
  intros Hh. unfold hash_step, shl.
  rewrite (ToInt32_id h) by assumption.
  change (0 mod 32) with 0. change (5 mod 32) with 5.
  rewrite Z.shiftl_0_r, Z.shiftl_mul_pow2 by lia.
  rewrite (ToInt32_id (ToInt32 _)) by apply ToInt32_range.
  unfold ToInt32. f_equal.
  replace (((h * 2 ^ 5 + 2 ^ 31) mod 2 ^ 32 - 2 ^ 31 - h + c + 2 ^ 31))
    with (((h * 2 ^ 5 + 2 ^ 31) mod 2 ^ 32 + (c - h))) by lia.
  rewrite Z.add_mod_idemp_l by lia. f_equal. lia.
Qed.

Lemma hash_loop_range (str : jsstring) (h : Z) :
  - 2 ^ 31 ≤ h ≤ 2 ^ 31 - 1 → - 2 ^ 31 ≤ hash_loop h str ≤ 2 ^ 31 - 1.
Proof.
  revert h; induction str as [|c str IH]; intros h Hh; simpl; [exact Hh|].
  apply IH, hash_step_range.
Qed.
End Hash.

Lemma identity_numeral (moduleId nodeId : jsstring) :
  let h := hash_loop 0 (moduleId ++ lit ":" ++ nodeId) in
  identity moduleId nodeId = String_of_number (h + 2 ^ 31)
  ∧ - 2 ^ 31 ≤ h ≤ 2 ^ 31 - 1.
Proof.
  intros h. split.
  - unfold identity, hash. f_equal. subst h. lia.
  - apply hash_loop_range. lia.
Qed.

Lemma identity_not_empty (moduleId nodeId : jsstring) :
  identity moduleId nodeId ≠ [].
Proof.
  destruct (identity_numeral moduleId nodeId) as [-> Hr].
  apply String_of_number_nonneg. lia.
Qed.

(** [C8] The identity function is total, with no error result: for every
    pair of strings the rolling hash of the concatenated fields is a signed
    32-bit integer, and the identity is the decimal numeral (digits only,
    not empty) of that hash plus 2^31, a value between 0 and 2^32 - 1. *)
Theorem identity_decimal_uint32 (moduleId nodeId : jsstring) :
  let h := hash_loop 0 (moduleId ++ lit ":" ++ nodeId) in
  - 2 ^ 31 ≤ h ≤ 2 ^ 31 - 1
  ∧ 0 ≤ h + 2 ^ 31 ≤ 2 ^ 32 - 1
  ∧ identity moduleId nodeId = String_of_number (h + 2 ^ 31)
  ∧ identity moduleId nodeId ≠ []
  ∧ Forall (λ c, is_digit c = true) (identity moduleId nodeId)
  ∧ parse_decimal (identity moduleId nodeId) = Some (h + 2 ^ 31).
Proof.
  intros h.
  destruct (identity_numeral moduleId nodeId) as [Hid Hr]. fold h in Hid, Hr.
  destruct (String_of_number_nonneg (h + 2 ^ 31)) as (Hd & Hne & Hp); [lia|].
  rewrite Hid. repeat split; try assumption; lia.
Qed.

(** [C7] The identity of an item is a function of its [(moduleId, nodeId)]
    pair alone: two items that agree on the pair have the same identity,
    whatever their [nodeInfo] and [children], and that identity is
    [identity moduleId nodeId]. *)
Theorem getItemId_pair_only (x y : HierarchyItem) :
  moduleId x = moduleId y →
  nodeId x = nodeId y →
  getItemId x = getItemId y
  ∧ getItemId x = identity (moduleId x) (nodeId x).
Proof.
  intros Hm Hn. unfold getItemId. rewrite Hm, Hn. split; reflexivity.
Qed.

Lemma getItemId_pair_only_witness :
  let x := Examples.item "n1" [] in
  let y := {| nodeInfo := {| jsxTagName := lit "div"; component := None;
                             attributes := [] |};
              moduleId := lit "App.tsx"; nodeId := lit "n1";
              children := [Examples.item "n2" []] |} in
  getItemId x = getItemId y
  ∧ getItemId x = identity (moduleId x) (nodeId x).
Proof.
  intros x y. apply (getItemId_pair_only x y); reflexivity.
Defined.

Example hash_of_empty_string : hash [] = lit "2147483648".
Proof. reflexivity. Qed.

Example hash_of_a : hash (lit "a") = lit "2147483745".
Proof. reflexivity. Qed.

(** Both ends of the range are attained: the hash of this string wraps to
    -2^31, so the identity can be ["0"]. *)
Example hash_lower_end : hash (lit "polygenelubricants") = lit "0".
Proof. vm_compute. reflexivity. Qed.

Example identity_of_button :
  identity (lit "App.tsx") (lit "n1") = lit "620149585".
Proof. vm_compute. reflexivity. Qed.

(** Identities are expected to be unique, which a 32-bit hash cannot
    promise: these two pairs share one. *)
Example identity_collision :
  identity (lit "m") (lit "Aa") = identity (lit "m") (lit "BB").
Proof. vm_compute. reflexivity. Qed.

(** ** Selection *)

Section Selection.
Variable id : jsstring.

Lemma find_append {A} (f : A → bool) (l1 l2 : list A) :
  find f (l1 ++ l2) = match find f l1 with Some x => Some x | None => find f l2 end.
Proof. induction l1 as [|a l1 IH]; simpl; [reflexivity|]. by destruct (f a). Qed.

Lemma preorder_item_unfold (item : HierarchyItem) :
  preorder_item item = item :: preorder (children item).
Proof.
  by destruct item.
Qed.

Lemma findIn_unfold (item : HierarchyItem) :
  findIn id item =
    if decide (getItemId item = id) then Some item
    else findItem id (children item).
Proof.
  destruct item as [ni m n ch]. cbn [findIn children].
  destruct (decide _); [reflexivity|].
  induction ch as [|c ch IH]; [reflexivity|].
  cbn [findItem]. by rewrite IH.
Qed.

Lemma findIn_preorder : ∀ item, findIn id item = find (has_id id) (preorder_item item).
Proof.
  fix IH 1. intros [ni m n ch].
  rewrite findIn_unfold, preorder_item_unfold. cbn [children find].
  unfold has_id at 1. destruct (decide _) as [He|He].
  - by rewrite bool_decide_eq_true_2.
  - rewrite bool_decide_eq_false_2 by assumption. clear He.
    induction ch as [|c ch IHch]; [reflexivity|].
    cbn [findItem preorder]. rewrite find_append, <- (IH c).
    destruct (findIn id c); [reflexivity|apply IHch].
Qed.

Lemma findItem_preorder (items : list HierarchyItem) :
  findItem id items = find (has_id id) (preorder items).
Proof.
  induction items as [|i items IH]; [reflexivity|].
  cbn [findItem preorder]. rewrite find_append, <- findIn_preorder.
  destruct (findIn id i); [reflexivity|apply IH].
Qed.
End Selection.

Lemma find_first_match {A} (f : A → bool) (l : list A) (x : A) :
  find f l = Some x →
  ∃ before after, l = before ++ x :: after ∧ f x = true
                  ∧ Forall (λ y, f y = false) before.
Proof.
  induction l as [|a l IH]; simpl; [discriminate|].
  destruct (f a) eqn:Hfa.
  - intros [= ->]. exists [], l. auto.
  - intros H. destruct (IH H) as (b & c & -> & Hx & Hb).
    exists (a :: b), c. auto.
Qed.

Lemma find_no_match {A} (f : A → bool) (l : list A) :
  find f l = None ↔ Forall (λ y, f y = false) l.
Proof.
  induction l as [|a l IH]; simpl; [split; auto|].
  destruct (f a) eqn:Hfa; split.
  - discriminate.
  - inversion 1; congruence.
  - intros H. constructor; [assumption|by apply IH].
  - inversion 1; by apply IH.
Qed.

Lemma getItemId_not_empty (item : HierarchyItem) : getItemId item ≠ [].
Proof. apply identity_not_empty. Qed.

(** [C5], as the code has it. For every forest and optional selection
    identity the resolver is a total function into an optional item (it has
    no error result):
    - with the identity unset it answers none;
    - with an identity it answers the first item of the forest, in
      pre-order, whose identity is the selected one;
    - an item it answers is an item of the forest it was given, no item
      before it in pre-order has the selected identity;
    - it answers none exactly when the identity is unset or no item of the
      forest has it; so after a rebuild whose forest has no item with the
      selected identity the selection resolves to none;
    - in terms of nodes: when the forest has no item with the
      [(moduleId, nodeId)] pair of a node and no item whose identity
      collides with that node's, the selection of that node resolves to
      none;
    - when the rebuilt forest has an item with the selected identity, be
      it another node whose identity collides, the selection resolves to
      the first such item. *)
Theorem selectedItem_resolves (forest : list HierarchyItem)
    (selection : option jsstring) :
  selectedItem forest None = None
  ∧ (∀ id, selectedItem forest (Some id) = find (has_id id) (preorder forest))
  ∧ (∀ found, selectedItem forest selection = Some found →
       ∃ id before after,
         selection = Some id ∧ getItemId found = id
         ∧ preorder forest = before ++ found :: after
         ∧ Forall (λ it, getItemId it ≠ id) before)
  ∧ (selectedItem forest selection = None ↔
       selection = None
       ∨ ∃ id, selection = Some id
               ∧ Forall (λ it, getItemId it ≠ id) (preorder forest))
  ∧ (∀ modules canvas w w' id,
       onMutation modules canvas w = Ok w' →
       selectedItemId w = Some id →
       Forall (λ it, getItemId it ≠ id) (preorder (nodeTree w')) →
       selectedItem (nodeTree w') (selectedItemId w') = None)
  ∧ (∀ gone : HierarchyItem,
       Forall (λ it, (moduleId it, nodeId it) ≠ (moduleId gone, nodeId gone))
         (preorder forest) →
       Forall (λ it, getItemId it = getItemId gone →
                     (moduleId it, nodeId it) = (moduleId gone, nodeId gone))
         (preorder forest) →
       selectedItem forest (Some (getItemId gone)) = None)
  ∧ (∀ modules canvas w w' id other,
       onMutation modules canvas w = Ok w' →
       selectedItemId w = Some id →
       find (has_id id) (preorder (nodeTree w')) = Some other →
       selectedItem (nodeTree w') (selectedItemId w') = Some other).
Proof.
  assert (Hany : ∀ (f : list HierarchyItem) id,
             selectedItem f (Some id) = find (has_id id) (preorder f)).
  { intros f id. unfold selectedItem. destruct id as [|c id]; simpl.
    - symmetry. apply find_no_match, Forall_forall. intros it _.
      unfold has_id. apply bool_decide_eq_false_2, getItemId_not_empty.
    - apply findItem_preorder. }
  pose proof (Hany forest) as Hfind.
  assert (Hnone : ∀ (f : list HierarchyItem) id,
             Forall (λ it, getItemId it ≠ id) (preorder f) →
             find (has_id id) (preorder f) = None).
  { intros f id H. apply find_no_match. eapply Forall_impl; [exact H|].
    intros it Hit. by apply bool_decide_eq_false_2. }
  assert (Hkeeps : ∀ modules canvas w w',
             onMutation modules canvas w = Ok w' →
             selectedItemId w' = selectedItemId w).
  { intros modules canvas w w' Hreb. unfold onMutation in Hreb.
    destruct (findNodes modules canvas) as [f|e]; simpl in Hreb; [|discriminate].
    by injection Hreb as <-. }
  split; [reflexivity|]. split; [exact Hfind|].
  split; [|split; [|split; [|split]]].
  - intros found Hsel. destruct selection as [id|]; [|discriminate].
    rewrite Hfind in Hsel.
    destruct (find_first_match _ _ _ Hsel) as (b & a & Hpre & Hid & Hb).
    exists id, b, a. repeat split; try assumption.
    + by apply bool_decide_eq_true_1 in Hid.
    + eapply Forall_impl; [exact Hb|]. intros it Hit.
      by apply bool_decide_eq_false_1 in Hit.
  - destruct selection as [id|]; [|split; auto].
    rewrite Hfind. split.
    + intros H. right. exists id. split; [reflexivity|].
      apply find_no_match in H. eapply Forall_impl; [exact H|].
      intros it Hit. by apply bool_decide_eq_false_1 in Hit.
    + intros [H|(id' & [= <-] & H)]; [discriminate|]. by apply Hnone.
  - intros modules canvas w w' id Hreb Hsel Hno.
    rewrite (Hkeeps _ _ _ _ Hreb), Hsel, Hany. by apply Hnone.
  - intros gone Hpair Hcoll. rewrite Hfind. apply Hnone.
    apply Forall_forall. intros it Hit Hid.
    rewrite Forall_forall in Hpair, Hcoll.
    apply (Hpair it Hit). by apply Hcoll.
  - intros modules canvas w w' id other Hreb Hsel Hother.
    by rewrite (Hkeeps _ _ _ _ Hreb), Hsel, Hany.
Qed.

(** The node [(m, Aa)] is selected and a rebuild removes it; the rebuilt
    forest holds the single node [(m, BB)], whose identity is the same, and
    the selection resolves to that node instead of none. *)
Lemma removal_does_not_always_clear : ¬ removal_clears_selection.
Proof.
  intros H.
  specialize (H Examples.colliding_modules Examples.canvas_BB
                {| nodeTree := [Examples.item_Aa];
                   selectedItemId := Some (getItemId Examples.item_Aa);
                   saved := [] |}
                {| nodeTree := [Examples.item_BB];
                   selectedItemId := Some (getItemId Examples.item_Aa);
                   saved := [] |}
                Examples.item_Aa).
  assert (Hsel : selectedItem [Examples.item_BB] (Some (getItemId Examples.item_Aa))
                 = Some Examples.item_BB) by (vm_compute; reflexivity).
  cbn [nodeTree selectedItemId] in H. rewrite Hsel in H.
  assert (Hnone : Some Examples.item_BB = None); [|discriminate Hnone].
  apply H.
  - simpl. left.
  - reflexivity.
  - vm_compute. reflexivity.
  - simpl. constructor; [|constructor]. intros [=].
Qed.

Example colliding_identities :
  getItemId Examples.item_Aa = lit "2150788717"
  ∧ getItemId Examples.item_BB = lit "2150788717".
Proof. split; vm_compute; reflexivity. Qed.

Example select_nested_item :
  selectedItem [Examples.item "n1" [Examples.item "n2" []]]
    (Some (identity (lit "App.tsx") (lit "n2")))
  = Some (Examples.item "n2" []).
Proof. vm_compute. reflexivity. Qed.

(** The node [n2] is selected, then a rebuild finds only [n1]. *)
Example stale_selection_after_rebuild :
  let selected :=
    {| nodeTree := [Examples.item "n1" [Examples.item "n2" []]];
       selectedItemId := Some (identity (lit "App.tsx") (lit "n2"));
       saved := [] |} in
  ∃ rebuilt,
    onMutation Examples.modules [HTMLElement (Examples.marked "n1") []] selected
    = Ok rebuilt
    ∧ selectedItemId rebuilt = selectedItemId selected
    ∧ selectedItem (nodeTree rebuilt) (selectedItemId rebuilt) = None.
Proof. eexists. split; [vm_compute; reflexivity|]. split; vm_compute; reflexivity. Qed.

(** ** The tree walk *)

Section Walk.
Variable modules : gmap jsstring ModuleInfo.

Lemma visit_HTMLElement (attrs : list (jsstring * jsstring))
    (childNodes : list ChildNode) :
  visit modules (HTMLElement attrs childNodes) =
    match markers attrs with
    | Some (moduleId, nodeId) =>
        let! nodeInfo :=
          invariant (lookupNodeInfo modules moduleId nodeId)
            (lit "nodeInfo is not defined for %s in %s") [nodeId; moduleId] in
        let! children := findNodes modules childNodes in
        Ok [ {| nodeInfo := nodeInfo; moduleId := moduleId;
                nodeId := nodeId; children := children |} ]
    | None => findNodes modules childNodes
    end.
Proof. reflexivity. Qed.

Lemma walked_from_HTMLElement (attrs : list (jsstring * jsstring))
    (childNodes : list ChildNode) :
  walked_from (HTMLElement attrs childNodes) =
    HTMLElement attrs childNodes :: walked childNodes.
Proof. reflexivity. Qed.

Lemma first_violation_app (l1 l2 : list ChildNode) :
  first_violation modules (l1 ++ l2) =
    match first_violation modules l1 with
    | Some mn => Some mn
    | None => first_violation modules l2
    end.
Proof.
  induction l1 as [|a l1 IH]; simpl; [reflexivity|].
  by destruct (violation modules a).
Qed.

Lemma first_violation_elem (l : list ChildNode) (node : ChildNode) :
  node ∈ l → is_Some (violation modules node) →
  is_Some (first_violation modules l).
Proof.
  induction 1 as [node l|node a l Hin IH]; intros Hv; simpl.
  - destruct Hv as [mn ->]. eauto.
  - destruct (violation modules a); eauto.
Qed.

Lemma findNodes_outcome_of_visit (elms : list ChildNode) :
  Forall (λ e, outcome modules (walked_from e) (visit modules e)) elms →
  outcome modules (walked elms) (findNodes modules elms).
Proof.
  unfold outcome. induction 1 as [|e elms He _ IH]; simpl; [eauto|].
  rewrite first_violation_app.
  destruct (first_violation modules (walked_from e)) as [[m n]|].
  - by rewrite He.
  - destruct He as [pushed ->]. simpl.
    destruct (first_violation modules (walked elms)) as [[m n]|].
    + by rewrite IH.
    + destruct IH as [more ->]. simpl. eauto.
Qed.

Lemma visit_outcome : ∀ elm, outcome modules (walked_from elm) (visit modules elm).
Proof.
  fix IH 1. intros [attrs kids|attrs kids|data];
    [|unfold outcome; simpl; eauto..].
  assert (Hkids : outcome modules (walked kids) (findNodes modules kids)).
  { apply findNodes_outcome_of_visit.
    induction kids as [|k kids IHk]; constructor; [apply IH|apply IHk]. }
  rewrite visit_HTMLElement, walked_from_HTMLElement.
  unfold outcome in *. cbn [first_violation violation].
  destruct (markers attrs) as [[m n]|]; [|exact Hkids].
  destruct (lookupNodeInfo modules m n) as [ni|]; simpl; [|reflexivity].
  destruct (first_violation modules (walked kids)) as [[m' n']|].
  - by rewrite Hkids.
  - destruct Hkids as [ch ->]. simpl. eauto.
Qed.

Lemma findNodes_outcome (elms : list ChildNode) :
  outcome modules (walked elms) (findNodes modules elms).
Proof.
  apply findNodes_outcome_of_visit, Forall_forall. intros e _. apply visit_outcome.
Qed.
End Walk.

Example findNodes_wrapper :
  findNodes Examples.modules [Examples.wrapper]
  = Ok [Examples.item "n1" []; Examples.item "n2" []].
Proof. vm_compute. reflexivity. Qed.

Example findNodes_svg_wrapper :
  findNodes Examples.modules [Examples.svg_wrapper] = Ok [].
Proof. reflexivity. Qed.

Example findNodes_unknown_button :
  findNodes Examples.modules [Examples.unknown_button]
  = Throw (nodeInfo_error (lit "App.tsx") (lit "n9")).
Proof. vm_compute. reflexivity. Qed.

Lemma bind_assoc_app (a b c : result (list HierarchyItem)) :
  (let! x := (let! p := a in let! q := b in Ok (p ++ q)) in
   let! y := c in Ok (x ++ y))
  = (let! p := a in
     let! z := (let! q := b in let! y := c in Ok (q ++ y)) in
     Ok (p ++ z)).
Proof.
  destruct a as [p|]; [|reflexivity]. destruct b as [q|]; [|reflexivity].
  destruct c as [y|]; [|reflexivity]. simpl. by rewrite app_assoc.
Qed.

Lemma bind_Ok_nil (r : result (list HierarchyItem)) :
  (let! more := r in Ok ([] ++ more)) = r.
Proof. by destruct r. Qed.

(** [C2], as the code has it. When the walk of a rebuild reaches an
    [HTMLElement] whose two markers are both present and not empty and the
    registry has no entry for them, the rebuild throws the invariant error
    of the first such element in document order: [findNodes] returns no
    forest and the mutation callback ends before it sets the tree. A node
    that is not an [HTMLElement] is passed over without any check, whatever
    its markers. *)
Theorem missing_nodeInfo_throws (modules : gmap jsstring ModuleInfo)
    (canvas : list ChildNode) (attrs : list (jsstring * jsstring))
    (childNodes : list ChildNode) (m n : jsstring) :
  HTMLElement attrs childNodes ∈ walked canvas →
  markers attrs = Some (m, n) →
  lookupNodeInfo modules m n = None →
  (∃ m' n',
     first_violation modules (walked canvas) = Some (m', n')
     ∧ findNodes modules canvas = Throw (nodeInfo_error m' n')
     ∧ ∀ w, onMutation modules canvas w = Throw (nodeInfo_error m' n'))
  ∧ (∀ node rest, is_HTMLElement node = false →
       findNodes modules (node :: rest) = findNodes modules rest).
Proof.
  intros Hin Hm Hl. split.
  - assert (Hv : is_Some (first_violation modules (walked canvas))).
    { eapply first_violation_elem; [exact Hin|]. simpl. rewrite Hm, Hl. eauto. }
    destruct Hv as [[m' n'] Hv]. exists m', n'.
    pose proof (findNodes_outcome modules canvas) as Ho.
    unfold outcome in Ho. rewrite Hv in Ho.
    split; [exact Hv|]. split; [exact Ho|].
    intros w. unfold onMutation. by rewrite Ho.
  - intros node rest Hnode. destruct node; [discriminate|..];
      cbn [findNodes visit]; apply bind_Ok_nil.
Qed.

Lemma missing_nodeInfo_throws_witness :
  (∃ m' n',
     first_violation Examples.modules (walked [Examples.unknown_button]) = Some (m', n')
     ∧ findNodes Examples.modules [Examples.unknown_button]
       = Throw (nodeInfo_error m' n')
     ∧ ∀ w, onMutation Examples.modules [Examples.unknown_button] w
            = Throw (nodeInfo_error m' n'))
  ∧ (∀ node rest, is_HTMLElement node = false →
       findNodes Examples.modules (node :: rest) = findNodes Examples.modules rest).
Proof.
  apply (missing_nodeInfo_throws Examples.modules [Examples.unknown_button]
           (Examples.marked "n9") [] (lit "App.tsx") (lit "n9")).
  - vm_compute. do 2 apply list_elem_of_further. apply list_elem_of_here.
  - vm_compute. reflexivity.
  - vm_compute. reflexivity.
Defined.

(** An SVG element with both markers and no registry entry is passed over
    in silence: the rebuild returns the empty forest. *)
Lemma marked_svg_is_skipped : ¬ every_marked_element_is_checked.
Proof.
  intros H.
  destruct (H Examples.modules [Examples.svg_marked] Examples.svg_marked
              (lit "App.tsx") (lit "n9")) as [e He].
  - apply list_elem_of_here.
  - reflexivity.
  - vm_compute. reflexivity.
  - vm_compute. reflexivity.
  - discriminate He.
Qed.

(** An empty marker counts as no marker: this element, unknown to the
    registry, is walked as plain scaffolding. *)
Example empty_marker_is_not_checked :
  findNodes Examples.modules
    [ HTMLElement [ (lit "data-mui-live-module-id", lit "");
                    (lit "data-mui-live-node-id", lit "n9") ] [] ]
  = Ok [].
Proof. vm_compute. reflexivity. Qed.

(** A marked HTML element below an SVG element is not reached, so its
    missing entry goes unnoticed too. *)
Example unknown_below_svg_is_not_checked :
  findNodes Examples.modules
    [ ForeignElement [] [ HTMLElement (Examples.marked "n9") [] ] ]
  = Ok [].
Proof. reflexivity. Qed.

(** [C3], as the code has it. An [HTMLElement] without a (non-empty) pair
    of markers gets no item of its own: the walk recurses into its children
    and splices their items into the list at its place. A wrapper of this
    kind around two identified children gives exactly their two items. A
    node that is not an [HTMLElement] (text, comment, or an element of
    another namespace) is ignored together with what is below it. *)
Theorem unmarked_HTMLElement_spliced (modules : gmap jsstring ModuleInfo)
    (attrs : list (jsstring * jsstring)) (childNodes : list ChildNode) :
  markers attrs = None →
  spliced modules (HTMLElement attrs childNodes)
  ∧ (∀ a1 k1 a2 k2 m1 n1 m2 n2 info1 info2 items1 items2,
       childNodes = [HTMLElement a1 k1; HTMLElement a2 k2] →
       markers a1 = Some (m1, n1) → markers a2 = Some (m2, n2) →
       lookupNodeInfo modules m1 n1 = Some info1 →
       lookupNodeInfo modules m2 n2 = Some info2 →
       findNodes modules k1 = Ok items1 →
       findNodes modules k2 = Ok items2 →
       findNodes modules [HTMLElement attrs childNodes] =
         Ok [ {| nodeInfo := info1; moduleId := m1; nodeId := n1; children := items1 |};
              {| nodeInfo := info2; moduleId := m2; nodeId := n2; children := items2 |} ])
  ∧ (∀ node, is_HTMLElement node = false → ignored modules node).
Proof.
  intros Hm. split; [|split].
  - intros rest. cbn [findNodes node_children].
    by rewrite visit_HTMLElement, Hm.
  - intros a1 k1 a2 k2 m1 n1 m2 n2 info1 info2 items1 items2
      -> Hm1 Hm2 Hl1 Hl2 Hk1 Hk2.
    cbn [findNodes]. rewrite visit_HTMLElement, Hm. cbn [findNodes].
    rewrite !visit_HTMLElement, Hm1, Hm2, Hl1, Hl2, Hk1, Hk2. reflexivity.
  - intros node Hnode rest. destruct node; [discriminate|..];
      cbn [findNodes visit]; apply bind_Ok_nil.
Qed.

Lemma unmarked_HTMLElement_spliced_witness :
  spliced Examples.modules Examples.wrapper
  ∧ findNodes Examples.modules [Examples.wrapper]
    = Ok [Examples.item "n1" []; Examples.item "n2" []]
  ∧ ignored Examples.modules Examples.svg_wrapper.
Proof.
  destruct (unmarked_HTMLElement_spliced Examples.modules
              [(lit "class", lit "box")]
              [ HTMLElement (Examples.marked "n1") [];
                HTMLElement (Examples.marked "n2") [] ])
    as (_ & Htwo & Hign); [reflexivity|].
  destruct (unmarked_HTMLElement_spliced Examples.modules
              [(lit "class", lit "box")] (node_children Examples.wrapper))
    as (Hspl & _ & _); [reflexivity|].
  split; [exact Hspl|]. split; [vm_compute; reflexivity|].
  apply Hign. reflexivity.
Defined.

(** An element of the SVG namespace is not spliced: the identified HTML
    element below it does not reach the forest. *)
Lemma foreignObject_is_not_spliced : ¬ every_unmarked_element_is_spliced.
Proof.
  intros H.
  specialize (H Examples.modules Examples.foreignObject eq_refl (conj eq_refl eq_refl) []).
  vm_compute in H. discriminate H.
Qed.

(** ** The component property registry *)

Section Registry.
Variable components : gmap ComponentRef ComponentInfo.

Lemma register_all_snoc (calls : list (ComponentRef * ComponentInfo))
    (c : ComponentRef) (info : ComponentInfo) :
  register_all (calls ++ [(c, info)]) components
  = registerComponent c info (register_all calls components).
Proof. unfold register_all. by rewrite fold_left_app. Qed.

Lemma last_registered_snoc (c c' : ComponentRef) (info : ComponentInfo)
    (calls : list (ComponentRef * ComponentInfo)) :
  last_registered c (calls ++ [(c', info)])
  = if decide (c' = c) then Some info else last_registered c calls.
Proof.
  induction calls as [|[k i] calls IH]; simpl.
  - reflexivity.
  - rewrite IH. destruct (decide (c' = c)); [reflexivity|].
    reflexivity.
Qed.

Lemma lookup_register_all (calls : list (ComponentRef * ComponentInfo))
    (c : ComponentRef) :
  register_all calls components !! c
  = match last_registered c calls with
    | Some info => Some info
    | None => components !! c
    end.
Proof.
  induction calls as [|[c' info] calls IH] using rev_ind; [reflexivity|].
  rewrite register_all_snoc, last_registered_snoc. unfold registerComponent.
  destruct (decide (c' = c)) as [->|Hne].
  - by rewrite lookup_insert_eq.
  - by rewrite lookup_insert_ne.
Qed.
End Registry.

Lemma truthy_component_iff (c : ComponentRef) :
  truthy_component (Some c) = true ↔ c ≠ ComponentName [].
Proof.
  destruct c as [[|x s]|i]; simpl; split; done.
Qed.

Lemma lookup_of_history (calls : list (ComponentRef * ComponentInfo))
    (c : ComponentRef) :
  lookupComponentInfo (register_all calls ∅) (Some c)
  = if truthy_component (Some c)
    then default DEFAULT_COMPONENT_INFO (last_registered c calls)
    else DEFAULT_COMPONENT_INFO.
Proof.
  unfold lookupComponentInfo.
  destruct (truthy_component (Some c)); [|reflexivity].
  rewrite lookup_register_all.
  destruct (last_registered c calls); [reflexivity|]. by rewrite lookup_empty.
Qed.

(** [C6], as the code has it. The lookup of the node editor is total, and
    after any history of registrations:
    - for every component reference other than the empty-string name (a
      component type or a non-empty name) it returns the entry that the
      history stored last for that reference, and the shared default when
      the history stored none; an entry registered now is the one returned;
    - for the empty-string name it returns the shared default, whatever the
      history stored under it, also right after a registration under it;
    - for an item without a component reference it returns the shared
      default;
    - the property set of the shared default is empty. *)
Theorem lookup_last_registered (calls : list (ComponentRef * ComponentInfo))
    (c : ComponentRef) :
  (c ≠ ComponentName [] →
   lookupComponentInfo (register_all calls ∅) (Some c)
   = default DEFAULT_COMPONENT_INFO (last_registered c calls)
   ∧ (∀ info, lookupComponentInfo (registerComponent c info (register_all calls ∅))
                (Some c) = info)
   ∧ (last_registered c calls = None →
      lookupComponentInfo (register_all calls ∅) (Some c) = DEFAULT_COMPONENT_INFO))
  ∧ lookupComponentInfo (register_all calls ∅) (Some (ComponentName []))
    = DEFAULT_COMPONENT_INFO
  ∧ (∀ info, lookupComponentInfo
               (registerComponent (ComponentName []) info (register_all calls ∅))
               (Some (ComponentName [])) = DEFAULT_COMPONENT_INFO)
  ∧ lookupComponentInfo (register_all calls ∅) (Some c)
    = (if truthy_component (Some c)
       then default DEFAULT_COMPONENT_INFO (last_registered c calls)
       else DEFAULT_COMPONENT_INFO)
  ∧ lookupComponentInfo (register_all calls ∅) None = DEFAULT_COMPONENT_INFO
  ∧ properties DEFAULT_COMPONENT_INFO = [].
Proof.
  pose proof (lookup_of_history calls c) as H.
  split; [|split; [reflexivity|split; [reflexivity|split; [exact H|split; reflexivity]]]].
  intros Ht%truthy_component_iff. rewrite Ht in H.
  split; [exact H|]. split.
  - intros info. unfold lookupComponentInfo, registerComponent.
    by rewrite Ht, lookup_insert_eq.
  - intros Hnone. by rewrite H, Hnone.
Qed.

Lemma lookup_last_registered_witness :
  let calls :=
    [ (Examples.Button, DEFAULT_COMPONENT_INFO);
      (ComponentName [], {| properties := [ (lit "size", {| Editor := None |}) ] |});
      (Examples.Button,
       {| properties := [ (lit "color", {| Editor := Some Examples.ColorEditor |}) ] |}) ] in
  Examples.Button ≠ ComponentName []
  ∧ lookupComponentInfo (register_all calls ∅) (Some Examples.Button)
    = {| properties := [ (lit "color", {| Editor := Some Examples.ColorEditor |}) ] |}
  ∧ lookupComponentInfo (register_all calls ∅) (Some (ComponentName []))
    = DEFAULT_COMPONENT_INFO.
Proof.
  intros calls.
  assert (Hne : Examples.Button ≠ ComponentName []) by discriminate.
  destruct (lookup_last_registered calls Examples.Button) as (H & Hempty & _).
  destruct (H Hne) as (Hlast & _).
  split; [exact Hne|]. split; [|exact Hempty].
  rewrite Hlast. reflexivity.
Defined.

(** An entry registered under the empty name is never returned: the empty
    string is falsy and the lookup answers the default. *)
Lemma empty_name_is_not_looked_up : ¬ every_reference_is_looked_up.
Proof.
  intros H.
  specialize (H ∅ (ComponentName [])
    {| properties := [ (lit "color", {| Editor := None |}) ] |}).
  discriminate H.
Qed.

(** ** Objects and the diff of a one-key update *)

Section Spread.
Variable key : jsstring.
Variable v : jsval.

Lemma overwrite_split (obj : jsobject) (w : jsval) :
  own obj key = Some w →
  ∃ l1 l2, obj = l1 ++ (key, w) :: l2
           ∧ overwrite key v obj = l1 ++ (key, v) :: l2.
Proof.
  induction obj as [|[k x] obj IH]; simpl; [discriminate|].
  destruct (decide (k = key)) as [->|Hne].
  - intros [= ->]. by exists [], obj.
  - intros H. destruct (IH H) as (l1 & l2 & -> & Ho).
    exists ((k, x) :: l1), l2. by rewrite Ho.
Qed.

Lemma insert_index_split (n : Z) (obj : jsobject) :
  ∃ l1 l2, obj = l1 ++ l2 ∧ insert_index n key v obj = l1 ++ (key, v) :: l2.
Proof.
  induction obj as [|[k x] obj IH]; simpl.
  - by exists [], [].
  - destruct (array_index k) as [m|]; [destruct (m <? n)|].
    + destruct IH as (l1 & l2 & -> & Hi).
      exists ((k, x) :: l1), l2. by rewrite Hi.
    + by exists [], ((k, x) :: obj).
    + by exists [], ((k, x) :: obj).
Qed.

(** The new object has the entries of the old one, in their order, with
    the entry of [key] set in place or created somewhere among them. *)
Lemma spread_with_split (obj : jsobject) :
  ∃ l1 l2,
    spread_with obj key v = l1 ++ (key, v) :: l2
    ∧ ((own obj key = None ∧ obj = l1 ++ l2) ∨ ∃ w, obj = l1 ++ (key, w) :: l2).
Proof.
  unfold spread_with. destruct (own obj key) as [w|] eqn:Hown.
  - destruct (overwrite_split obj w Hown) as (l1 & l2 & Hobj & Hov).
    exists l1, l2. split; [exact Hov|]. right. by exists w.
  - destruct (array_index key) as [n|].
    + destruct (insert_index_split n obj) as (l1 & l2 & Hobj & Hi).
      exists l1, l2. auto.
    + exists obj, []. rewrite app_nil_r. auto.
Qed.

Lemma own_app (l1 l2 : jsobject) (k : jsstring) :
  own (l1 ++ l2) k = match own l1 k with Some x => Some x | None => own l2 k end.
Proof.
  induction l1 as [|[k' x] l1 IH]; simpl; [reflexivity|].
  by destruct (decide (k' = k)).
Qed.

Lemma own_elem (obj : jsobject) (k : jsstring) :
  k ∈ obj.*1 → is_Some (own obj k).
Proof.
  induction obj as [|[k' x] obj IH]; simpl.
  - by intros ?%elem_of_nil.
  - destruct (decide (k' = k)); [eauto|].
    intros [?|H]%elem_of_cons; [congruence|auto].
Qed.

Lemma own_None_not_elem (obj : jsobject) (k : jsstring) :
  own obj k = None → k ∉ obj.*1.
Proof. intros H Hin. apply own_elem in Hin. rewrite H in Hin. by destruct Hin. Qed.

Lemma overwrite_own_other (obj : jsobject) (k : jsstring) :
  k ≠ key → own (overwrite key v obj) k = own obj k.
Proof.
  intros Hne. induction obj as [|[k' x] obj IH]; simpl; [reflexivity|].
  destruct (decide (k' = key)) as [->|Hk]; simpl.
  - destruct (decide (key = k)); [congruence|reflexivity].
  - destruct (decide (k' = k)); [reflexivity|apply IH].
Qed.

Lemma insert_index_own_other (n : Z) (obj : jsobject) (k : jsstring) :
  k ≠ key → own (insert_index n key v obj) k = own obj k.
Proof.
  intros Hne. induction obj as [|[k' x] obj IH]; simpl.
  - destruct (decide (key = k)); [congruence|reflexivity].
  - destruct (array_index k') as [m|]; [destruct (m <? n)|]; simpl.
    + by rewrite IH.
    + destruct (decide (key = k)); [congruence|reflexivity].
    + destruct (decide (key = k)); [congruence|reflexivity].
Qed.

Lemma own_spread_other (obj : jsobject) (k : jsstring) :
  k ≠ key → own (spread_with obj key v) k = own obj k.
Proof.
  intros Hne. unfold spread_with. destruct (own obj key).
  - by apply overwrite_own_other.
  - destruct (array_index key).
    + by apply insert_index_own_other.
    + rewrite own_app. destruct (own obj k); [reflexivity|]. simpl.
      destruct (decide (key = k)); [congruence|reflexivity].
Qed.

Lemma own_spread_same (obj : jsobject) :
  own (spread_with obj key v) key = Some v.
Proof.
  unfold spread_with. destruct (own obj key) as [w|] eqn:Hown.
  - induction obj as [|[k' x] obj IH]; simpl in *; [discriminate|].
    destruct (decide (k' = key)) as [->|Hk]; simpl.
    + by rewrite decide_True.
    + rewrite decide_False by assumption. by apply IH.
  - destruct (array_index key) as [n|].
    + induction obj as [|[k' x] obj IH]; simpl in *.
      * by rewrite decide_True.
      * destruct (decide (k' = key)) as [->|Hk]; [discriminate|].
        destruct (array_index k') as [m|]; [destruct (m <? n)|]; simpl;
          rewrite ?(decide_False _ _ Hk), ?decide_True by reflexivity; auto.
    + rewrite own_app, Hown. simpl. by rewrite decide_True.
Qed.
End Spread.

Section DiffOfSpread.
Variable descend : path → jsval → jsval → diffs.

Lemma strict_ne_same (a : jsval) : strict_ne a a = false.
Proof. unfold strict_ne. by rewrite bool_decide_eq_true_2. Qed.

Lemma merge_no_diffs (d : diffs) : merge d no_diffs = d.
Proof. destruct d. unfold merge. simpl. by rewrite !app_nil_r. Qed.

Lemma flat_map_nothing {A B} (f : A → list B) (l : list A) :
  (∀ x, x ∈ l → f x = []) → flat_map f l = [].
Proof.
  induction l as [|a l IH]; intros H; simpl; [reflexivity|].
  rewrite (H a) by left. apply IH. intros x Hx. apply H. by right.
Qed.

Lemma fold_no_diffs (cmp : jsstring → diffs) (l : jsobject) (acc : diffs) :
  (∀ k, k ∈ l.*1 → cmp k = no_diffs) →
  fold_left (λ acc '(k, _), merge acc (cmp k)) l acc = acc.
Proof.
  revert acc. induction l as [|[k x] l IH]; intros acc H; simpl; [reflexivity|].
  rewrite (H k) by left. rewrite merge_no_diffs. apply IH.
  intros k' Hk'. apply H. by right.
Qed.

(** Only the comparison at the updated key contributes to the diff of an
    object with its one-key update. *)
Lemma diff_spread_with (obj1 : jsobject) (key : jsstring) (v : jsval) :
  NoDup obj1.*1 →
  diff descend obj1 (spread_with obj1 key v)
  = operations (compare_key descend obj1 (spread_with obj1 key v) [] key).
Proof.
  intros Hnd. set (obj2 := spread_with obj1 key v).
  assert (Hhas : ∀ k, k ∈ obj1.*1 → has obj2 k = true).
  { intros k Hk. unfold has, obj2. destruct (decide (k = key)) as [->|Hne].
    - by rewrite own_spread_same.
    - rewrite own_spread_other by assumption.
      by destruct (own_elem obj1 k Hk) as [x ->]. }
  assert (Hrm : removed_keys obj1 obj2 [] = []).
  { apply flat_map_nothing. intros [k x] Hin.
    rewrite Hhas; [reflexivity|]. apply list_elem_of_fmap. by exists (k, x). }
  assert (Hsame : ∀ k, k ∈ obj1.*1 → k ≠ key →
            compare_key descend obj1 obj2 [] k = no_diffs).
  { intros k Hk Hne. unfold compare_key.
    assert (Hget : get obj2 k = get obj1 k).
    { unfold get, obj2. by rewrite own_spread_other. }
    rewrite Hget, strict_ne_same.
    unfold has. by destruct (own_elem obj1 k Hk) as [x ->]. }
  destruct (spread_with_split key v obj1) as (l1 & l2 & Hsplit & Hobj).
  assert (Hrest : ∀ k, k ∈ (l1 ++ l2).*1 → k ∈ obj1.*1 ∧ k ≠ key).
  { intros k Hk. destruct Hobj as [[Hown ->]|[w ->]].
    - split; [assumption|]. intros ->.
      by apply (own_None_not_elem _ _ Hown).
    - rewrite fmap_app, fmap_cons in Hnd. simpl in Hnd.
      apply NoDup_app in Hnd as (_ & Hdis & [Hnot _]%NoDup_cons).
      rewrite fmap_app, elem_of_app in Hk. split.
      + rewrite fmap_app, fmap_cons, elem_of_app, elem_of_cons. tauto.
      + intros ->. destruct Hk as [Hk|Hk]; [|contradiction].
        apply (Hdis key Hk). by left. }
  unfold diff, getDiff. fold obj2. rewrite Hrm.
  set (cmp := compare_key descend obj1 obj2 []) in *.
  change (spread_with obj1 key v) with obj2 in Hsplit.
  rewrite Hsplit, fold_left_app. simpl.
  rewrite fold_no_diffs.
  2:{ intros k Hk. apply Hsame; apply Hrest; rewrite fmap_app, elem_of_app; auto. }
  rewrite fold_no_diffs.
  2:{ intros k Hk. apply Hsame; apply Hrest; rewrite fmap_app, elem_of_app; auto. }
  reflexivity.
Qed.

Lemma item_object_NoDup (item : HierarchyItem) : NoDup (item_object item).*1.
Proof.
  simpl. repeat (apply NoDup_cons; split); [..|apply NoDup_nil_2];
    rewrite ?elem_of_cons, elem_of_nil; intros H;
    repeat (destruct H as [H|H]); try discriminate H; exact H.
Qed.

(** The patch of an edit is the outcome of the comparison at the key. *)
Lemma diff_item_update (item : HierarchyItem) (key : jsstring) (v : jsval) :
  diff descend (item_object item) (spread_with (item_object item) key v)
  = key_patch descend item key v.
Proof.
  rewrite diff_spread_with by apply item_object_NoDup.
  unfold compare_key, key_patch.
  assert (Hget : get (spread_with (item_object item) key v) key = v).
  { unfold get. by rewrite own_spread_same. }
  rewrite Hget. cbn [app].
  destruct (has (item_object item) key); [|reflexivity]. cbn [negb].
  destruct (strict_ne _ v); [|reflexivity].
  by destruct (is_primitive _ || is_primitive v).
Qed.

Lemma key_patch_below (item : HierarchyItem) (key : jsstring) (v : jsval) :
  descends_below descend →
  Forall (λ op, [Key key] `prefix_of` op_path op) (key_patch descend item key v).
Proof.
  intros Hd. unfold key_patch.
  destruct (has (item_object item) key); cbn [negb].
  - destruct (strict_ne _ v); [|constructor].
    destruct (is_primitive _ || is_primitive v).
    + constructor; [by exists []|constructor].
    + apply Forall_forall. intros op Hop. by eapply Hd.
  - constructor; [by exists []|constructor].
Qed.

Lemma key_patch_exact (item : HierarchyItem) (key : jsstring) (v : jsval) :
  has (item_object item) key = false
  ∨ is_primitive (get (item_object item) key) = true
  ∨ is_primitive v = true →
  Forall (λ op, op_path op = [Key key]) (key_patch descend item key v)
  ∧ (length (key_patch descend item key v) ≤ 1)%nat.
Proof.
  intros H. unfold key_patch.
  destruct (has (item_object item) key) eqn:Hhas; cbn [negb].
  - destruct (strict_ne _ v); [|split; [constructor|simpl; lia]].
    destruct (is_primitive (get _ key) || is_primitive v) eqn:Hp.
    + split; [repeat constructor|simpl; lia].
    + apply orb_false_iff in Hp as [Hp1 Hp2].
      destruct H as [H|[H|H]]; congruence.
  - split; [repeat constructor|simpl; lia].
Qed.
End DiffOfSpread.

(** ** The patch emitter *)

Lemma replace_whole_descends_below : descends_below Examples.replace_whole.
Proof.
  intros p a b op Hop. unfold operations, Examples.replace_whole in Hop.
  simpl in Hop. apply list_elem_of_singleton in Hop as ->.
  exists []. simpl. by rewrite app_nil_r.
Qed.

(** [C4] An edit of one key [k] calls the persistence interface once with
    the diff between the item and its copy with [k] set to the new value.
    Every operation of that diff lies at the path of [k] or below it (below
    only through just-diff's descent into two distinct objects): when [k]
    is not a property of the item the diff is the single addition at [k],
    and whenever the old or the new value is not an object every operation
    is at the path [k] itself and there is at most one. Nothing else
    changes: the tree that holds the item and the selection are the same
    after the call. *)
Theorem handleChange_touches_only_key
    (descend : path → jsval → jsval → diffs)
    (item : HierarchyItem) (key : jsstring) (v : jsval) (w : World) :
  descends_below descend →
  let patches :=
    diff descend (item_object item) (spread_with (item_object item) key v) in
  let w' := handleChange descend item key v w in
  saved w' = saved w ++ [ {| call_moduleId := moduleId item;
                             call_nodeId := nodeId item;
                             call_patches := patches |} ]
  ∧ Forall (λ op, [Key key] `prefix_of` op_path op) patches
  ∧ (has (item_object item) key = false → patches = [Add [Key key] v])
  ∧ (has (item_object item) key = false
     ∨ is_primitive (get (item_object item) key) = true
     ∨ is_primitive v = true →
     Forall (λ op, op_path op = [Key key]) patches ∧ (length patches ≤ 1)%nat)
  ∧ nodeTree w' = nodeTree w
  ∧ selectedItemId w' = selectedItemId w.
Proof.
  intros Hd patches w'. subst patches w'.
  unfold handleChange, saveNodeProperties. cbn [saved nodeTree selectedItemId].
  rewrite diff_item_update.
  split; [reflexivity|]. split; [by apply key_patch_below|].
  split; [|split; [apply key_patch_exact|split; reflexivity]].
  intros Hhas. unfold key_patch. by rewrite Hhas.
Qed.

Lemma handleChange_touches_only_key_witness :
  descends_below Examples.replace_whole
  ∧ saved (handleChange Examples.replace_whole (Examples.item "n1" [])
             (lit "children") (VObject (OtherObject 1)) Examples.initial)
    = [ Examples.save_call
          [ Replace [Key (lit "children")] (VObject (OtherObject 1)) ] ].
Proof.
  split; [exact replace_whole_descends_below|].
  destruct (handleChange_touches_only_key Examples.replace_whole
              (Examples.item "n1" []) (lit "children") (VObject (OtherObject 1))
              Examples.initial replace_whole_descends_below) as (Hsaved & _).
  rewrite Hsaved. vm_compute. reflexivity.
Defined.

Example edit_children_with_text :
  ∀ descend,
    call_patches <$> saved (handleChange descend (Examples.item "n1" [])
                              (lit "children") (VString (lit "Save")) Examples.initial)
    = [ [ Replace [Key (lit "children")] (VString (lit "Save")) ] ].
Proof. intros descend. vm_compute. reflexivity. Qed.

Example edit_inherited_key :
  ∀ descend,
    call_patches <$> saved (handleChange descend (Examples.item "n1" [])
                              (lit "toString") (VNull) Examples.initial)
    = [ [ Replace [Key (lit "toString")] VNull ] ].
Proof. intros descend. vm_compute. reflexivity. Qed.

Example edit_index_key :
  ∀ descend,
    spread_with (item_object (Examples.item "n1" [])) (lit "0") (VNumber 1)
    = (lit "0", VNumber 1) :: item_object (Examples.item "n1" [])
    ∧ call_patches <$> saved (handleChange descend (Examples.item "n1" [])
                                (lit "0") (VNumber 1) Examples.initial)
      = [ [ Add [Key (lit "0")] (VNumber 1) ] ].
Proof. intros descend. split; vm_compute; reflexivity. Qed.

Example edit_moduleId_unchanged :
  ∀ descend,
    call_patches <$> saved (handleChange descend (Examples.item "n1" [])
                              (lit "moduleId") (VString (lit "App.tsx")) Examples.initial)
    = [ [] ].
Proof. intros descend. vm_compute. reflexivity. Qed.

(** ** The end-to-end scenario *)

(** [C1], as the code has it. With a component registered with the one
    editable property [color], an item of that component whose static
    attribute [color] is ["red"], and that item selected, the panel shows
    one editor with the value ["red"], and its [onChange("blue")] calls
    [saveNodeProperties] exactly once, with the item's [moduleId] and
    [nodeId] and the patch list [[{op: "add", path: ["color"], value:
    "blue"}]]: [color] is not a property of the item that is diffed, so the
    operation is an addition. *)
Theorem edit_color_saves_one_add
    (descend : path → jsval → jsval → diffs)
    (components : gmap ComponentRef ComponentInfo)
    (c : ComponentRef) (E : EditorComponent)
    (item : HierarchyItem) (w : World) :
  component (nodeInfo item) = Some c →
  truthy_component (Some c) = true →
  attributeValue item (lit "color") = VString (lit "red") →
  selectedItem (nodeTree w) (selectedItemId w) = Some item →
  let registered :=
    registerComponent c
      {| properties := [ (lit "color", {| Editor := Some E |}) ] |} components in
  ∃ onChange,
    propertyPanel descend registered w
    = Some [ {| row_key := lit "color";
                row_editor := Some {| element_type := E;
                                      value_prop := VString (lit "red");
                                      onChange_prop := onChange |} |} ]
    ∧ saved (onChange (VString (lit "blue")) w)
      = saved w ++ [ {| call_moduleId := moduleId item;
                        call_nodeId := nodeId item;
                        call_patches :=
                          [ Add [Key (lit "color")] (VString (lit "blue")) ] |} ].
Proof.
  intros Hc Ht Hattr Hsel registered.
  exists (handleChange descend item (lit "color")).
  split.
  - unfold propertyPanel, NodeEditor. rewrite Hsel, Hc.
    unfold lookupComponentInfo. rewrite Ht. unfold registered, registerComponent.
    rewrite lookup_insert_eq. cbn -[attributeValue lit handleChange].
    by rewrite Hattr.
  - unfold handleChange, saveNodeProperties. cbn [saved].
    rewrite diff_item_update. reflexivity.
Qed.

Lemma scenario_saves_add (descend : path → jsval → jsval → diffs) :
  Examples.scenario descend
  = Some [ Examples.save_call [ Add [Key (lit "color")] (VString (lit "blue")) ] ].
Proof. vm_compute. reflexivity. Qed.

Lemma edit_color_saves_one_add_witness :
  let item := Examples.item "n1" [] in
  let w := {| nodeTree := [item];
              selectedItemId := Some (getItemId item);
              saved := [] |} in
  onMutation Examples.modules [HTMLElement (Examples.marked "n1") []] Examples.initial
  = Ok {| nodeTree := [item]; selectedItemId := None; saved := [] |}
  ∧ selectedItem (nodeTree w) (selectedItemId w) = Some item
  ∧ ∃ onChange,
      propertyPanel Examples.replace_whole Examples.components w
      = Some [ {| row_key := lit "color";
                  row_editor := Some {| element_type := Examples.ColorEditor;
                                        value_prop := VString (lit "red");
                                        onChange_prop := onChange |} |} ]
      ∧ saved (onChange (VString (lit "blue")) w)
        = [ Examples.save_call [ Add [Key (lit "color")] (VString (lit "blue")) ] ].
Proof.
  intros item w.
  split; [vm_compute; reflexivity|].
  split; [vm_compute; reflexivity|].
  apply (edit_color_saves_one_add Examples.replace_whole ∅ Examples.Button
           Examples.ColorEditor item w);
    vm_compute; reflexivity.
Defined.

(** The operation that the scenario saves is an addition. *)
Lemma scenario_does_not_save_replace : ¬ scenario_saves_replace.
Proof.
  intros H. specialize (H Examples.replace_whole).
  rewrite scenario_saves_add in H. discriminate H.
Qed.

(** * Further properties of the code *)

(** ** The hash as a polynomial *)

Section Polynomial.
Lemma ToInt32_congr (x y : Z) :
  (x - y) mod 2 ^ 32 = 0 → ToInt32 x = ToInt32 y.
Proof.
  intros H. unfold ToInt32. f_equal.
  apply Z.mod_divide in H; [|lia]. destruct H as [k Hk].
  replace (x + 2 ^ 31) with (y + 2 ^ 31 + k * 2 ^ 32) by lia.
  apply Z.mod_add. lia.
Qed.

Lemma ToInt32_diff (x : Z) : (ToInt32 x - x) mod 2 ^ 32 = 0.
Proof.
  unfold ToInt32.
  pose proof (Z.div_mod (x + 2 ^ 31) (2 ^ 32)) as H.
  replace ((x + 2 ^ 31) mod 2 ^ 32 - 2 ^ 31 - x)
    with (- ((x + 2 ^ 31) / 2 ^ 32) * 2 ^ 32) by lia.
  apply Z.mod_mul. lia.
Qed.

Lemma ToInt32_step (x c : Z) : ToInt32 (31 * ToInt32 x + c) = ToInt32 (31 * x + c).
Proof.
  apply ToInt32_congr.
  replace (31 * ToInt32 x + c - (31 * x + c)) with (31 * (ToInt32 x - x)) by lia.
  pose proof (ToInt32_diff x) as H.
  apply Z.mod_divide in H; [|lia]. destruct H as [k Hk]. rewrite Hk.
  replace (31 * (k * 2 ^ 32)) with (31 * k * 2 ^ 32) by lia.
  apply Z.mod_mul. lia.
Qed.

Lemma hash_loop_fold (str : jsstring) (a : Z) :
  hash_loop (ToInt32 a) str = ToInt32 (fold_left (λ acc c, 31 * acc + c) str a).
Proof.
  revert a. induction str as [|c str IH]; intros a; simpl; [reflexivity|].
  rewrite hash_step_spec by apply ToInt32_range.
  by rewrite ToInt32_step, IH.
Qed.

Lemma hash_loop_poly31 (str : jsstring) : hash_loop 0 str = ToInt32 (poly31 str).
Proof. apply (hash_loop_fold str 0). Qed.
End Polynomial.

(** [X1] The rolling hash is the base-31 polynomial of the code units
    reduced once to a signed 32-bit integer: wrapping at every step of the
    loop gives the same number as wrapping at the end, and the identity is
    the numeral of that number plus 2^31. *)
Theorem hash_is_wrapped_polynomial (str : jsstring) :
  hash_loop 0 str = ToInt32 (poly31 str)
  ∧ hash str = String_of_number (ToInt32 (poly31 str) + 2 ^ 31)
  ∧ (poly31 str - hash_loop 0 str) mod 2 ^ 32 = 0.
Proof.
  pose proof (hash_loop_poly31 str) as H. split; [exact H|]. split.
  - unfold hash. rewrite H. f_equal. lia.
  - rewrite H. pose proof (ToInt32_diff (poly31 str)) as Hd.
    apply Z.mod_divide in Hd; [|lia]. destruct Hd as [k Hk].
    replace (poly31 str - ToInt32 (poly31 str)) with (- k * 2 ^ 32) by lia.
    apply Z.mod_mul. lia.
Qed.

Lemma poly31_app (a b : jsstring) :
  poly31 (a ++ b) = fold_left (λ acc c, 31 * acc + c) b (poly31 a).
Proof. unfold poly31. apply fold_left_app. Qed.

(** [X2] The identity is not injective, for a reason of the hash: for every
    module id and every node id that contains ["Aa"], the node id with
    ["BB"] in its place is a different node id with the same identity. *)
Theorem identity_collides (moduleId before after : jsstring) :
  before ++ lit "Aa" ++ after ≠ before ++ lit "BB" ++ after
  ∧ identity moduleId (before ++ lit "Aa" ++ after)
    = identity moduleId (before ++ lit "BB" ++ after).
Proof.
  split.
  - intros H. apply app_inv_head in H. discriminate H.
  - unfold identity, hash. do 3 f_equal.
    rewrite !hash_loop_poly31. f_equal.
    rewrite !app_assoc, !poly31_app.
    set (x := fold_left _ before _).
    enough (fold_left (λ acc c, 31 * acc + c) (lit "Aa") x
            = fold_left (λ acc c, 31 * acc + c) (lit "BB") x) as -> by reflexivity.
    simpl. lia.
Qed.

(** [X3] The identity is not injective for a reason of the template
    string either: a colon can be read as the separator or as a part of
    either field, so a module id [a:b] with node id [c] and a module id [a]
    with node id [b:c] share the hashed string and the identity. *)
Theorem identity_separator_ambiguous (a b c : jsstring) :
  (a ++ lit ":" ++ b, c) ≠ (a, b ++ lit ":" ++ c)
  ∧ identity (a ++ lit ":" ++ b) c = identity a (b ++ lit ":" ++ c).
Proof.
  split.
  - intros [= H _]. apply (f_equal length) in H.
    rewrite !length_app in H. simpl in H. lia.
  - unfold identity. f_equal. by rewrite <- !app_assoc.
Qed.

(** [X4] Two pairs have the same identity exactly when their template
    strings have the same 32-bit hash: the numeral loses nothing. *)
Theorem identity_eq_iff_hash_eq (m n m' n' : jsstring) :
  identity m n = identity m' n'
  ↔ hash_loop 0 (m ++ lit ":" ++ n) = hash_loop 0 (m' ++ lit ":" ++ n').
Proof.
  unfold identity, hash. split; [|by intros ->].
  pose proof (hash_loop_range (m ++ lit ":" ++ n) 0 ltac:(lia)) as R1.
  pose proof (hash_loop_range (m' ++ lit ":" ++ n') 0 ltac:(lia)) as R2.
  change (2 ^ 31) with 2147483648 in R1, R2.
  generalize dependent (hash_loop 0 (m ++ lit ":" ++ n)).
  generalize dependent (hash_loop 0 (m' ++ lit ":" ++ n')).
  intros h2 R2 h1 R1 H.
  destruct (String_of_number_nonneg (h1 + 2147483647 + 1)) as (_ & _ & P1); [lia|].
  destruct (String_of_number_nonneg (h2 + 2147483647 + 1)) as (_ & _ & P2); [lia|].
  rewrite H, P2 in P1. injection P1. lia.
Qed.

(** ** The shape of an identity *)

Section Numeral.
Lemma digits_value_lower (s : jsstring) (acc v : Z) :
  0 ≤ acc → digits_value acc s = Some v →
  acc * 10 ^ Z.of_nat (length s) ≤ v.
Proof.
  revert acc. induction s as [|c s IH]; intros acc Hacc; simpl digits_value.
  - intros [= <-]. simpl. lia.
  - destruct (is_digit c) eqn:Hc; [|discriminate]. intros H.
    unfold is_digit in Hc. apply andb_true_iff in Hc as [H1%Z.leb_le H2%Z.leb_le].
    apply IH in H; [|lia].
    simpl length. rewrite Nat2Z.inj_succ, Z.pow_succ_r by lia.
    pose proof (Z.pow_nonneg 10 (Z.of_nat (length s)) ltac:(lia)). nia.
Qed.

Lemma to_uint_head (p : positive) :
  ∃ c s, uint_codes (Pos.to_uint p) = c :: s ∧ 49 ≤ c ≤ 57.
Proof.
  pose proof (DecimalPos.Unsigned.to_of (Pos.to_uint p)) as Hn.
  rewrite DecimalPos.Unsigned.of_to in Hn. simpl in Hn.
  pose proof (DecimalPos.Unsigned.to_uint_nonzero p) as Hz.
  pose proof (DecimalPos.Unsigned.to_uint_nonnil p) as Hnil.
  destruct (Pos.to_uint p) as [|d|d|d|d|d|d|d|d|d|d] eqn:E;
    [congruence| |simpl; eexists _, _; split; [reflexivity|lia]..].
  exfalso. unfold Decimal.unorm in Hn. simpl in Hn.
  destruct (Decimal.nzhead d) eqn:Hd.
  - apply Hz. exact Hn.
  - symmetry in Hn. revert Hn. rewrite <- Hd. apply DecimalFacts.nzhead_nonzero.
  - discriminate Hn.
  - discriminate Hn.
  - discriminate Hn.
  - discriminate Hn.
  - discriminate Hn.
  - discriminate Hn.
  - discriminate Hn.
  - discriminate Hn.
  - discriminate Hn.
Qed.

Lemma String_of_number_canonical (z : Z) :
  0 ≤ z < 10 ^ 10 →
  (1 ≤ length (String_of_number z) ≤ 10)%nat
  ∧ (∀ rest, String_of_number z = 48 :: rest → rest = [] ∧ z = 0).
Proof.
  intros Hz. destruct z as [|p|p]; [| |lia].
  - split; [simpl; lia|]. by intros rest [= <-].
  - destruct (String_of_number_nonneg (Z.pos p)) as (_ & _ & Hp); [lia|].
    unfold String_of_number in *. cbn [Z.to_int] in *.
    unfold Pos.to_int in *.
    destruct (to_uint_head p) as (c & s & Hcs & Hc). rewrite Hcs in *.
    split; [|intros rest [= -> _]; lia].
    simpl length. split; [lia|].
    unfold parse_decimal in Hp. simpl digits_value in Hp.
    assert (Hd : is_digit c = true).
    { unfold is_digit. apply andb_true_iff. split; apply Z.leb_le; lia. }
    rewrite Hd in Hp. apply digits_value_lower in Hp; [|lia].
    destruct (decide (length s ≤ 9)%nat) as [|Hlong]; [lia|]. exfalso.
    assert (10 ^ 10 ≤ 10 ^ Z.of_nat (length s)) by (apply Z.pow_le_mono_r; lia).
    nia.
Qed.
End Numeral.

(** [X5] An identity is a canonical numeral: it has between one and ten
    characters, and it starts with the digit zero only when it is ["0"]. *)
Theorem identity_canonical (moduleId nodeId : jsstring) :
  (1 ≤ length (identity moduleId nodeId) ≤ 10)%nat
  ∧ (∀ rest, identity moduleId nodeId = 48 :: rest → rest = []).
Proof.
  destruct (identity_numeral moduleId nodeId) as [-> Hr].
  set (h := hash_loop 0 _) in *. clearbody h.
  destruct (String_of_number_canonical (h + 2 ^ 31)) as [Hlen Hzero].
  { change (2 ^ 31) with 2147483648 in *. change (10 ^ 10) with 10000000000. lia. }
  split; [exact Hlen|]. intros rest H. by apply Hzero in H as [-> _].
Qed.

(** ** Selection across rebuilds *)

Lemma find_unique {A} (f : A → bool) (l : list A) (x : A) :
  x ∈ l → f x = true → (∀ y, y ∈ l → f y = true → y = x) →
  find f l = Some x.
Proof.
  induction l as [|a l IH]; intros Hin Hx Hu; [by apply elem_of_nil in Hin|].
  simpl. destruct (f a) eqn:Hfa.
  - f_equal. apply Hu; [left|assumption].
  - apply elem_of_cons in Hin as [->|Hin]; [congruence|].
    apply IH; [assumption..|]. intros y Hy. apply Hu. by right.
Qed.

Lemma selectedItem_find (forest : list HierarchyItem) (id : jsstring) :
  selectedItem forest (Some id) = find (has_id id) (preorder forest).
Proof.
  unfold selectedItem. destruct id as [|c id]; simpl.
  - symmetry. apply find_no_match, Forall_forall. intros it _.
    unfold has_id. apply bool_decide_eq_false_2, getItemId_not_empty.
  - apply findItem_preorder.
Qed.

(** [X6] A selection survives a rebuild, wherever the node has moved: when
    the forest has an item with the [(moduleId, nodeId)] pair of the item
    that was selected and no other item of the forest has that identity,
    the selection resolves to that item. *)
Theorem selection_survives_rebuild (forest : list HierarchyItem)
    (old new : HierarchyItem) :
  item_pair new = item_pair old →
  new ∈ preorder forest →
  (∀ it, it ∈ preorder forest → getItemId it = getItemId new → it = new) →
  selectedItem forest (Some (getItemId old)) = Some new.
Proof.
  intros [= Hm Hn] Hin Huniq.
  assert (Hid : getItemId old = getItemId new).
  { unfold getItemId. by rewrite Hm, Hn. }
  rewrite Hid, selectedItem_find.
  apply find_unique; [assumption|..].
  - unfold has_id. by apply bool_decide_eq_true_2.
  - intros it Hit Hf. apply Huniq; [assumption|].
    unfold has_id in Hf. by apply bool_decide_eq_true_1 in Hf.
Qed.

Lemma selection_survives_rebuild_witness :
  let old := Examples.item "n2" [] in
  let new := Examples.item "n2" [Examples.item "n1" []] in
  selectedItem [new] (Some (getItemId old)) = Some new.
Proof.
  intros old new.
  apply (selection_survives_rebuild [new] old new).
  - reflexivity.
  - simpl. left.
  - intros it Hit Hid. simpl in Hit.
    apply elem_of_cons in Hit as [->|Hit]; [reflexivity|].
    apply list_elem_of_singleton in Hit as ->.
    vm_compute in Hid. discriminate Hid.
Defined.

(** ** What a rebuild returns *)

Section Rebuild.
Variable modules : gmap jsstring ModuleInfo.

Lemma preorder_app (a b : list HierarchyItem) :
  preorder (a ++ b) = preorder a ++ preorder b.
Proof.
  induction a as [|x a IH]; simpl; [reflexivity|]. by rewrite IH, app_assoc.
Qed.

Lemma markers_truthy (attrs : list (jsstring * jsstring)) (m n : jsstring) :
  markers attrs = Some (m, n) → m ≠ [] ∧ n ≠ [].
Proof.
  unfold markers.
  destruct (getAttribute attrs _) as [m'|]; [|discriminate].
  destruct (getAttribute attrs _) as [n'|]; [|discriminate].
  destruct m', n'; simpl; try discriminate; intros [= <- <-]; done.
Qed.

Lemma mirrors_app (n1 n2 : list ChildNode) (f1 f2 : list HierarchyItem) :
  mirrors modules n1 f1 → mirrors modules n2 f2 →
  mirrors modules (n1 ++ n2) (f1 ++ f2).
Proof.
  intros [H1 R1] [H2 R2]. unfold mirrors, marked_pairs in *.
  rewrite preorder_app, map_app, omap_app, H1, H2. split; [reflexivity|].
  by apply Forall_app.
Qed.

Lemma findNodes_mirrors_of_visit (elms : list ChildNode) :
  Forall (λ e, ∀ items, visit modules e = Ok items →
               mirrors modules (walked_from e) items) elms →
  ∀ forest, findNodes modules elms = Ok forest →
            mirrors modules (walked elms) forest.
Proof.
  induction 1 as [|e elms He _ IH]; intros forest; simpl.
  - intros [= <-]. by split; [|constructor].
  - destruct (visit modules e) as [pushed|]; [|discriminate]. simpl.
    destruct (findNodes modules elms) as [more|]; [|discriminate]. simpl.
    intros [= <-]. apply mirrors_app; auto.
Qed.

Lemma visit_mirrors :
  ∀ elm items, visit modules elm = Ok items →
               mirrors modules (walked_from elm) items.
Proof.
  fix IH 1. intros [attrs kids|attrs kids|data] items;
    [|simpl; intros [= <-]; by split; [|constructor]..].
  assert (Hkids : ∀ forest, findNodes modules kids = Ok forest →
                            mirrors modules (walked kids) forest).
  { apply findNodes_mirrors_of_visit.
    induction kids as [|k kids IHk]; constructor; [apply IH|apply IHk]. }
  rewrite visit_HTMLElement, walked_from_HTMLElement.
  unfold mirrors, marked_pairs. cbn [omap list_omap node_attrs].
  destruct (markers attrs) as [[m n]|] eqn:Hm.
  - destruct (lookupNodeInfo modules m n) as [info|] eqn:Hl; [|discriminate].
    simpl. destruct (findNodes modules kids) as [ch|]; [|discriminate].
    simpl. intros [= <-].
    destruct (Hkids ch eq_refl) as [Hp Hr].
    cbn [preorder]. rewrite app_nil_r, preorder_item_unfold. cbn [children map].
    split; [by rewrite Hp|].
    constructor; [|exact Hr].
    destruct (markers_truthy attrs m n Hm). by repeat split.
  - intros H. apply (Hkids items H).
Qed.
End Rebuild.

Lemma findNodes_mirrors_markers_aux (modules : gmap jsstring ModuleInfo)
    (canvas : list ChildNode) (forest : list HierarchyItem) :
  findNodes modules canvas = Ok forest → mirrors modules (walked canvas) forest.
Proof.
  revert forest. apply findNodes_mirrors_of_visit, Forall_forall.
  intros e _. apply visit_mirrors.
Qed.

(** [X7] A rebuild that succeeds is complete and exact: read in pre-order,
    the [(moduleId, nodeId)] pairs of the forest are the marker pairs of the
    walked elements that have them, in document order, none missing, none
    added; every item has non-empty ids and carries the [NodeInfo] of the
    registry. *)
Theorem findNodes_mirrors_markers (modules : gmap jsstring ModuleInfo)
    (canvas : list ChildNode) (forest : list HierarchyItem) :
  findNodes modules canvas = Ok forest →
  map item_pair (preorder forest) = marked_pairs (walked canvas)
  ∧ Forall (from_registry modules) (preorder forest).
Proof.
  revert forest.
  apply (findNodes_mirrors_of_visit modules canvas), Forall_forall.
  intros e _ items Hvisit. by apply visit_mirrors.
Qed.

Lemma findNodes_mirrors_markers_witness :
  findNodes Examples.modules [Examples.wrapper]
  = Ok [Examples.item "n1" []; Examples.item "n2" []]
  ∧ map item_pair (preorder [Examples.item "n1" []; Examples.item "n2" []])
    = marked_pairs (walked [Examples.wrapper])
  ∧ Forall (from_registry Examples.modules)
      (preorder [Examples.item "n1" []; Examples.item "n2" []]).
Proof.
  assert (H : findNodes Examples.modules [Examples.wrapper]
              = Ok [Examples.item "n1" []; Examples.item "n2" []])
    by (vm_compute; reflexivity).
  split; [exact H|].
  exact (findNodes_mirrors_markers Examples.modules [Examples.wrapper] _ H).
Defined.

Lemma first_violation_None (modules : gmap jsstring ModuleInfo)
    (nodes : list ChildNode) :
  first_violation modules nodes = None
  ↔ Forall (λ node, violation modules node = None) nodes.
Proof.
  induction nodes as [|node nodes IH]; simpl; [split; auto|].
  destruct (violation modules node) eqn:Hv; split.
  - discriminate.
  - inversion 1; congruence.
  - intros H. constructor; [assumption|by apply IH].
  - inversion 1; by apply IH.
Qed.

Lemma first_violation_Some (modules : gmap jsstring ModuleInfo)
    (nodes : list ChildNode) :
  is_Some (first_violation modules nodes)
  ↔ Exists (λ node, is_Some (violation modules node)) nodes.
Proof.
  induction nodes as [|node nodes IH]; simpl.
  - split; [intros [? ?]; discriminate|inversion 1].
  - rewrite Exists_cons. destruct (violation modules node) eqn:Hv.
    + split; eauto.
    + rewrite IH. split; [auto|]. intros [[? ?]|H]; [discriminate|exact H].
Qed.

(** [X8] A rebuild succeeds exactly when no walked element has a marker
    pair that the registry does not know; otherwise it throws. In
    particular a tree without markers always gives the empty forest. *)
Theorem findNodes_succeeds_iff (modules : gmap jsstring ModuleInfo)
    (canvas : list ChildNode) :
  ((∃ forest, findNodes modules canvas = Ok forest)
   ↔ Forall (λ node, violation modules node = None) (walked canvas))
  ∧ ((∃ e, findNodes modules canvas = Throw e)
     ↔ Exists (λ node, is_Some (violation modules node)) (walked canvas))
  ∧ (marked_pairs (walked canvas) = [] → findNodes modules canvas = Ok []).
Proof.
  pose proof (findNodes_outcome modules canvas) as Ho. unfold outcome in Ho.
  pose proof (first_violation_None modules (walked canvas)) as Hn.
  pose proof (first_violation_Some modules (walked canvas)) as Hs.
  split; [|split].
  - destruct (first_violation modules (walked canvas)) as [[m n]|].
    + rewrite Ho. split; [intros [? ?]; discriminate|].
      intros H. apply Hn in H. discriminate.
    + split; [intros _; by apply Hn|intros _; exact Ho].
  - rewrite <- Hs. destruct (first_violation modules (walked canvas)) as [[m n]|].
    + rewrite Ho. split; eauto.
    + destruct Ho as [f ->]. split; intros [? ?]; discriminate.
  - intros Hnone.
    assert (HF : Forall (λ node, violation modules node = None) (walked canvas)).
    { apply Forall_forall. intros node Hin.
      destruct node as [attrs kids| |]; [|reflexivity..]. simpl.
      destruct (markers attrs) as [[m n]|] eqn:Hm; [|reflexivity].
      exfalso. unfold marked_pairs in Hnone.
      assert (Hp : (m, n) ∈ omap (λ node, markers (node_attrs node)) (walked canvas)).
      { apply list_elem_of_omap. eexists. split; [exact Hin|exact Hm]. }
      rewrite Hnone in Hp. by apply elem_of_nil in Hp. }
    apply Hn in HF. rewrite HF in Ho. destruct Ho as [forest Hf].
    destruct (findNodes_mirrors_markers_aux modules canvas forest Hf) as [Hp _].
    rewrite Hnone in Hp. rewrite Hf. f_equal.
    destruct forest as [|x forest]; [reflexivity|].
    simpl in Hp. rewrite preorder_item_unfold in Hp. discriminate Hp.
Qed.

Lemma findNodes_append (modules : gmap jsstring ModuleInfo) (a b : list ChildNode) :
  findNodes modules (a ++ b) =
    (let! first := findNodes modules a in
     let! second := findNodes modules b in
     Ok (first ++ second)).
Proof.
  induction a as [|e a IH]; cbn [app findNodes].
  - simpl. by destruct (findNodes modules b).
  - rewrite IH. destruct (visit modules e) as [pushed|]; [|reflexivity].
    destruct (findNodes modules a) as [fa|]; [|reflexivity].
    destruct (findNodes modules b) as [fb|]; [|reflexivity].
    simpl. by rewrite app_assoc.
Qed.

(** [X9] The walk of a list of siblings is the walk of its parts, in
    order: the forest of [a ++ b] is the forest of [a] followed by that of
    [b], and an exception of [a] hides [b]. *)
Theorem findNodes_app (modules : gmap jsstring ModuleInfo) (a b : list ChildNode) :
  findNodes modules (a ++ b) =
    (let! first := findNodes modules a in
     let! second := findNodes modules b in
     Ok (first ++ second)).
Proof.
  induction a as [|e a IH]; cbn [app findNodes].
  - simpl. by destruct (findNodes modules b).
  - rewrite IH. destruct (visit modules e) as [pushed|]; [|reflexivity].
    destruct (findNodes modules a) as [fa|]; [|reflexivity].
    destruct (findNodes modules b) as [fb|]; [|reflexivity].
    simpl. by rewrite app_assoc.
Qed.

Section RegistryGrows.
Variables modules modules' : gmap jsstring ModuleInfo.
Hypothesis included : registry_included modules modules'.

Lemma findNodes_grows_of_visit (elms : list ChildNode) :
  Forall (λ e, ∀ items, visit modules e = Ok items → visit modules' e = Ok items)
    elms →
  ∀ forest, findNodes modules elms = Ok forest → findNodes modules' elms = Ok forest.
Proof.
  induction 1 as [|e elms He _ IH]; intros forest; simpl; [done|].
  destruct (visit modules e) as [pushed|] eqn:Hv; [|discriminate].
  rewrite (He pushed eq_refl). simpl.
  destruct (findNodes modules elms) as [more|]; [|discriminate].
  by rewrite (IH more eq_refl).
Qed.

Lemma visit_grows :
  ∀ elm items, visit modules elm = Ok items → visit modules' elm = Ok items.
Proof.
  fix IH 1. intros [attrs kids|attrs kids|data] items; [|done..].
  assert (Hkids : ∀ forest, findNodes modules kids = Ok forest →
                            findNodes modules' kids = Ok forest).
  { apply findNodes_grows_of_visit.
    induction kids as [|k kids IHk]; constructor; [apply IH|apply IHk]. }
  rewrite !visit_HTMLElement.
  destruct (markers attrs) as [[m n]|]; [|apply Hkids].
  destruct (lookupNodeInfo modules m n) as [info|] eqn:Hl; [|discriminate].
  rewrite (included m n info Hl). simpl.
  destruct (findNodes modules kids) as [ch|]; [|discriminate].
  by rewrite (Hkids ch eq_refl).
Qed.
End RegistryGrows.

(** [X10] Registering more nodes does not disturb a rebuild that succeeds:
    when a second registry knows every entry of the first, a canvas that
    the first rebuilds into a forest is rebuilt by the second into the same
    forest. *)
Theorem findNodes_registry_grows (modules modules' : gmap jsstring ModuleInfo)
    (canvas : list ChildNode) (forest : list HierarchyItem) :
  registry_included modules modules' →
  findNodes modules canvas = Ok forest →
  findNodes modules' canvas = Ok forest.
Proof.
  intros Hinc. revert forest.
  apply (findNodes_grows_of_visit modules modules'), Forall_forall.
  intros e _. by apply visit_grows.
Qed.

Lemma registry_included_insert (modules : gmap jsstring ModuleInfo)
    (m : jsstring) (info : ModuleInfo) :
  modules !! m = None → registry_included modules (<[m := info]> modules).
Proof.
  intros Hnone m' n ni. unfold lookupNodeInfo.
  destruct (decide (m = m')) as [<-|Hne].
  - by rewrite Hnone.
  - by rewrite lookup_insert_ne.
Qed.

Lemma findNodes_registry_grows_witness :
  let modules' :=
    <[ lit "Other.tsx" := {| nodes := {[ lit "n9" := Examples.button_info ]} |} ]>
      Examples.modules in
  registry_included Examples.modules modules'
  ∧ findNodes modules' [Examples.wrapper]
    = Ok [Examples.item "n1" []; Examples.item "n2" []].
Proof.
  intros modules'.
  assert (Hinc : registry_included Examples.modules modules').
  { apply registry_included_insert. vm_compute. reflexivity. }
  split; [exact Hinc|].
  apply (findNodes_registry_grows Examples.modules modules' [Examples.wrapper] _ Hinc).
  vm_compute. reflexivity.
Defined.

(** ** The node editor *)

Section Rows.
Variable descend : path → jsval → jsval → diffs.
Variable components : gmap ComponentRef ComponentInfo.

Lemma find_filter_fused (key : jsstring) (attrs : list Attribute) :
  find (λ attr, bool_decide (name attr = key))
    (filter (λ attr, kind attr = Static) attrs)
  = find (shows key) attrs.
Proof.
  induction attrs as [|a attrs IH]; [reflexivity|].
  rewrite filter_cons. unfold shows at 1. cbn [find].
  destruct (decide (kind a = Static)) as [Hk|Hk].
  - rewrite (bool_decide_eq_true_2 _ Hk). cbn [find andb].
    destruct (bool_decide (name a = key)); [reflexivity|exact IH].
  - rewrite (bool_decide_eq_false_2 _ Hk). exact IH.
Qed.

Lemma attributeValue_find (item : HierarchyItem) (key : jsstring) :
  attributeValue item key
  = match find (shows key) (attributes (nodeInfo item)) with
    | Some attr => value attr
    | None => VUndefined
    end.
Proof. unfold attributeValue. by rewrite find_filter_fused. Qed.
End Rows.


(** [X12] The value an editor is shown comes from the first attribute
    that is static and has the row's name; dynamic attributes of that name
    are passed over, wherever they stand. Without such an attribute, or
    when its value is [undefined] or [null], the editor is shown [null]. *)
Theorem attributeValue_first_static (item : HierarchyItem) (key : jsstring) :
  attributeValue item key
  = match find (shows key) (attributes (nodeInfo item)) with
    | Some attr => value attr
    | None => VUndefined
    end
  ∧ (Forall (λ attr, name attr = key → kind attr = Dynamic)
       (attributes (nodeInfo item)) →
     nullish (attributeValue item key) VNull = VNull)
  ∧ (∀ before attr after,
       attributes (nodeInfo item) = before ++ attr :: after →
       kind attr = Static → name attr = key →
       Forall (λ a, name a = key → kind a = Dynamic) before →
       attributeValue item key = value attr).
Proof.
  pose proof (attributeValue_find item key) as H. split; [exact H|].
  assert (Hskip : ∀ l, Forall (λ a, name a = key → kind a = Dynamic) l →
                       find (shows key) l = None).
  { intros l Hl. apply find_no_match. eapply Forall_impl; [exact Hl|].
    intros a Ha. unfold shows.
    destruct (decide (name a = key)) as [Hn|Hn].
    - rewrite (bool_decide_eq_false_2 (kind a = Static)); [reflexivity|].
      rewrite (Ha Hn). discriminate.
    - rewrite (bool_decide_eq_false_2 _ Hn). apply andb_false_r. }
  split.
  - intros Hdyn. by rewrite H, (Hskip _ Hdyn).
  - intros before attr after Hattrs Hk Hn Hbefore.
    rewrite H, Hattrs, find_append, (Hskip _ Hbefore). simpl.
    unfold shows. by rewrite !bool_decide_eq_true_2.
Qed.

(** [X13] With a new value that is not an object the patch of an edit is
    decided by the key alone: the single addition at the key when the item
    has no such property (own or inherited), nothing when the item's value
    at the key is identical to the new one, and the single replacement at
    the key otherwise. The call is made in every case, also with the empty
    patch. *)
Theorem primitive_edit_patch (descend : path → jsval → jsval → diffs)
    (item : HierarchyItem) (key : jsstring) (v : jsval) (w : World) :
  is_primitive v = true →
  saved (handleChange descend item key v w)
  = saved w ++
    [ {| call_moduleId := moduleId item;
         call_nodeId := nodeId item;
         call_patches :=
           if has (item_object item) key
           then if decide (get (item_object item) key = v) then []
                else [Replace [Key key] v]
           else [Add [Key key] v] |} ].
Proof.
  intros Hv. unfold handleChange, saveNodeProperties. cbn [saved].
  rewrite diff_item_update. unfold key_patch, strict_ne.
  destruct (has (item_object item) key); [|reflexivity]. cbn [negb].
  destruct (decide (get (item_object item) key = v)) as [He|He].
  - by rewrite bool_decide_eq_true_2.
  - rewrite bool_decide_eq_false_2 by assumption. cbn [negb].
    by rewrite Hv, orb_true_r.
Qed.

Lemma primitive_edit_patch_witness :
  is_primitive (VString (lit "App.tsx")) = true
  ∧ saved (handleChange Examples.replace_whole (Examples.item "n1" [])
             (lit "moduleId") (VString (lit "App.tsx")) Examples.initial)
    = [ Examples.save_call [] ].
Proof.
  split; [reflexivity|].
  rewrite (primitive_edit_patch Examples.replace_whole (Examples.item "n1" [])
             (lit "moduleId") (VString (lit "App.tsx")) Examples.initial eq_refl).
  vm_compute. reflexivity.
Defined.

(** ** One-key updates of objects *)

Lemma spread_with_keys (obj : jsobject) (key : jsstring) (v : jsval) :
  NoDup obj.*1 → NoDup (spread_with obj key v).*1.
Proof.
  intros Hnd. destruct (spread_with_split key v obj) as (l1 & l2 & -> & Hobj).
  rewrite fmap_app, fmap_cons. cbn [fst].
  destruct Hobj as [[Hown ->]|[w ->]].
  - apply own_None_not_elem in Hown.
    rewrite fmap_app in Hnd, Hown. rewrite elem_of_app in Hown.
    apply NoDup_app in Hnd as (H1 & Hdis & H2).
    apply NoDup_app. split; [exact H1|]. split.
    + intros k Hk [->|Hk2]%elem_of_cons; [tauto|]. by apply (Hdis k).
    + apply NoDup_cons. tauto.
  - by rewrite fmap_app, fmap_cons in Hnd.
Qed.

(** [X14] The copy [{ ...obj, [key]: v }] reads back [v] at [key] and the
    values of [obj] at every other key; it has one property more than
    [obj] when [key] is new and as many otherwise; it has no key twice when
    [obj] has none; and a second update of the same key replaces the
    first. *)
Theorem spread_with_round_trip (obj : jsobject) (key : jsstring) (v : jsval) :
  own (spread_with obj key v) key = Some v
  ∧ (∀ k, k ≠ key → own (spread_with obj key v) k = own obj k)
  ∧ length (spread_with obj key v)
    = match own obj key with
      | Some _ => length obj
      | None => S (length obj)
      end
  ∧ (NoDup obj.*1 → NoDup (spread_with obj key v).*1)
  ∧ (∀ v', spread_with (spread_with obj key v) key v' = spread_with obj key v').
Proof.
  split; [apply own_spread_same|]. split; [intros k; apply own_spread_other|].
  split; [|split; [apply spread_with_keys|]].
  - destruct (spread_with_split key v obj) as (l1 & l2 & -> & Hobj).
    destruct Hobj as [[Hown ->]|[w ->]].
    + rewrite Hown, !length_app. simpl. lia.
    + destruct (own _ key) eqn:Hown.
      * rewrite !length_app. reflexivity.
      * exfalso. apply own_None_not_elem in Hown. apply Hown.
        rewrite fmap_app, fmap_cons, elem_of_app, elem_of_cons. auto.
  - intros v'. unfold spread_with at 1. rewrite own_spread_same.
    unfold spread_with. destruct (own obj key) as [w|] eqn:Hown.
    + clear Hown. induction obj as [|[k x] obj IH]; [reflexivity|]. simpl.
      destruct (decide (k = key)) as [->|Hk]; simpl.
      * by rewrite decide_True.
      * rewrite decide_False by assumption. by rewrite IH.
    + destruct (array_index key) as [n|].
      * induction obj as [|[k x] obj IH]; simpl in *.
        -- by rewrite decide_True.
        -- destruct (decide (k = key)) as [->|Hk]; [discriminate|].
           destruct (array_index k) as [m|]; [destruct (m <? n)|]; simpl;
             rewrite ?(decide_False _ _ Hk), ?decide_True by reflexivity;
             rewrite ?IH by assumption; reflexivity.
      * induction obj as [|[k x] obj IH]; simpl in *.
        -- by rewrite decide_True.
        -- destruct (decide (k = key)) as [->|Hk]; [discriminate|].
           by rewrite IH.
Qed.

(** ** The toggle button select *)

Section ToggleProps.
Import Toggle.

Lemma assign_own (source target : jsobject) (k : jsstring) :
  NoDup source.*1 →
  own (assign target source) k
  = match own source k with
    | Some v => Some v
    | None => own target k
    end.
Proof.
  unfold assign. revert target.
  induction source as [|[k1 v1] source IH]; intros target Hnd; [reflexivity|].
  rewrite fmap_cons in Hnd. apply NoDup_cons in Hnd as [Hnot Hnd].
  cbn [fold_left own fst]. rewrite IH by assumption.
  destruct (decide (k1 = k)) as [->|Hne].
  - destruct (own source k) eqn:Hown.
    + exfalso. apply Hnot. clear -Hown.
      induction source as [|[k' x] source IH]; [discriminate|]. simpl in *.
      destruct (decide (k' = k)) as [->|]; [left|right; auto].
    + apply own_spread_same.
  - destruct (own source k); [reflexivity|]. apply own_spread_other. congruence.
Qed.

Lemma own_filter_key (obj : jsobject) (gone k : jsstring) :
  own (filter (λ kv, kv.1 ≠ gone) obj) k
  = if decide (k = gone) then None else own obj k.
Proof.
  unfold jsobject in *. induction obj as [|[k' x] obj IH].
  - by destruct (decide (k = gone)).
  - rewrite filter_cons. cbn [fst].
    destruct (decide (k' ≠ gone)) as [Hk|Hk]; cbn [own].
    + destruct (decide (k' = k)) as [->|]; [by rewrite decide_False|exact IH].
    + apply dec_stable in Hk. subst k'. rewrite IH.
      destruct (decide (k = gone)) as [->|Hne]; [reflexivity|].
      by rewrite decide_False by congruence.
Qed.
End ToggleProps.

(** [X15] The buttons of the toggle select follow the options one to one
    and in order. A button's key and value are the option's value; its
    label is the option's own label when that is present and not empty, and
    the value otherwise, so a button with a non-empty value never has an
    empty label. Without [options] there are no buttons. *)
Theorem ToggleButtonSelect_buttons (p : Toggle.ToggleButtonSelectProps) :
  let buttons := Toggle.groupChildren (Toggle.ToggleButtonSelect p) in
  let opts := default [] (Toggle.options p) in
  map Toggle.button_value buttons = map Toggle.optionValue opts
  ∧ map Toggle.button_key buttons = map Toggle.button_value buttons
  ∧ length buttons = length opts
  ∧ Forall (λ b, Toggle.button_children b = [] → Toggle.button_value b = []) buttons
  ∧ (∀ s, Toggle.renderOption (Toggle.OptionString s)
          = {| Toggle.button_key := s; Toggle.button_value := s;
               Toggle.button_children := s |})
  ∧ (∀ v l, Toggle.button_children (Toggle.renderOption (Toggle.OptionObject v l))
            = match l with
              | Some (c :: l') => c :: l'
              | Some [] | None => v
              end).
Proof.
  intros buttons opts. subst buttons opts. unfold Toggle.ToggleButtonSelect. simpl.
  destruct (Toggle.options p) as [opts|]; simpl.
  - split; [by rewrite map_map|]. split; [by rewrite !map_map|].
    split; [by rewrite length_map|]. split; [|split].
    + apply Forall_forall. intros b [o [-> _]]%list_elem_of_fmap.
      unfold Toggle.renderOption, Toggle.optionLabel, Toggle.or_else. simpl.
      destruct o as [s|v [l|]]; simpl; [by destruct s| |done].
      destruct l; simpl; [done|discriminate].
    + intros s. unfold Toggle.renderOption, Toggle.optionLabel. simpl.
      by destruct s.
    + intros v [[|c l]|]; reflexivity.
  - repeat split; try constructor.
    + intros s. unfold Toggle.renderOption, Toggle.optionLabel. simpl.
      by destruct s.
    + intros v [[|c l]|]; reflexivity.
Qed.

(** [X16] On the button group the caller's other props come last and win:
    a prop of [rest] is passed on with the caller's value, also over the
    written defaults [color="primary"], [exclusive] and [aria-label]; a
    prop that [rest] does not have keeps the written value. Since the
    destructuring takes [value], [onChange], [disabled] and [fullWidth]
    out of [rest], these four always reach the group as given, and
    [options] and [label] never reach it. *)
Theorem ToggleButtonSelect_groupProps (p : Toggle.ToggleButtonSelectProps) :
  NoDup (Toggle.rest p).*1 →
  Forall (λ k, own (Toggle.rest p) k = None) Toggle.destructured →
  let props := Toggle.groupProps (Toggle.ToggleButtonSelect p) in
  (∀ k, k ≠ lit "children" →
        own props k = match own (Toggle.rest p) k with
                      | Some v => Some v
                      | None => own (Toggle.explicit p) k
                      end)
  ∧ own props (lit "children") = None
  ∧ own props (lit "value") = Some (Toggle.value p)
  ∧ own props (lit "onChange") = Some (Toggle.onChange p)
  ∧ own props (lit "disabled") = Some (Toggle.disabled p)
  ∧ own props (lit "fullWidth") = Some (Toggle.fullWidth p)
  ∧ own props (lit "options") = None
  ∧ own props (lit "label") = None
  ∧ (own (Toggle.rest p) (lit "color") = None →
     own props (lit "color") = Some (VString (lit "primary"))).
Proof.
  intros Hnd Hout props. subst props. unfold Toggle.ToggleButtonSelect. simpl.
  assert (H : ∀ k, k ≠ lit "children" →
            own (filter (λ kv, kv.1 ≠ lit "children")
                   (Toggle.assign (Toggle.explicit p) (Toggle.rest p))) k
            = match own (Toggle.rest p) k with
              | Some v => Some v
              | None => own (Toggle.explicit p) k
              end).
  { intros k Hk. rewrite own_filter_key, decide_False by assumption.
    by apply assign_own. }
  unfold Toggle.destructured in Hout. simpl in Hout.
  repeat match goal with
         | Hf : Forall _ (_ :: _) |- _ => apply Forall_cons in Hf as [? Hf]
         end.
  split; [exact H|]. split; [by rewrite own_filter_key, decide_True|].
  repeat split;
    try (intros Hc); rewrite H by discriminate;
    repeat match goal with Ho : own _ _ = None |- _ => rewrite Ho; clear Ho end;
    reflexivity.
Qed.

Lemma ToggleButtonSelect_groupProps_witness :
  let p := {| Toggle.options := Some [Toggle.OptionString (lit "left")];
              Toggle.label := VString (lit "Align");
              Toggle.value := VString (lit "left");
              Toggle.onChange := VObject (OtherObject 1);
              Toggle.disabled := VUndefined;
              Toggle.fullWidth := VBool true;
              Toggle.rest := [ (lit "color", VString (lit "secondary"));
                               (lit "size", VString (lit "small")) ] |} in
  own (Toggle.groupProps (Toggle.ToggleButtonSelect p)) (lit "color")
  = Some (VString (lit "secondary"))
  ∧ own (Toggle.groupProps (Toggle.ToggleButtonSelect p)) (lit "exclusive")
    = Some (VBool true)
  ∧ own (Toggle.groupProps (Toggle.ToggleButtonSelect p)) (lit "value")
    = Some (VString (lit "left")).
Proof.
  intros p.
  assert (Hnd : NoDup (Toggle.rest p).*1).
  { simpl. apply NoDup_cons. split; [|apply NoDup_singleton].
    intros H. apply list_elem_of_singleton in H. discriminate H. }
  assert (Hout : Forall (λ k, own (Toggle.rest p) k = None) Toggle.destructured).
  { unfold Toggle.destructured. simpl. repeat constructor. }
  destruct (ToggleButtonSelect_groupProps p Hnd Hout) as (H & _ & Hv & _).
  split; [|split; [|exact Hv]].
  - rewrite H by discriminate. reflexivity.
  - rewrite H by discriminate. reflexivity.
Defined.

(** ** The editor at work *)

Section Panel.
Variable descend : path → jsval → jsval → diffs.
Variable components : gmap ComponentRef ComponentInfo.

Lemma find_row (item : HierarchyItem) (key : jsstring)
    (props : list (jsstring * PropertyInfo)) :
  find (λ row, bool_decide (row_key row = key))
    (map (λ '(k, propertyInfo),
       {| row_key := k;
          row_editor :=
            match Editor propertyInfo with
            | Some E =>
                Some {| element_type := E;
                        value_prop := nullish (attributeValue item k) VNull;
                        onChange_prop := handleChange descend item k |}
            | None => None
            end |}) props)
  = match find (λ p, bool_decide (p.1 = key)) props with
    | Some (k, propertyInfo) =>
        Some {| row_key := k;
                row_editor :=
                  match Editor propertyInfo with
                  | Some E =>
                      Some {| element_type := E;
                              value_prop := nullish (attributeValue item k) VNull;
                              onChange_prop := handleChange descend item k |}
                  | None => None
                  end |}
    | None => None
    end.
Proof.
  induction props as [|[k p] props IH]; [reflexivity|]. cbn [map find fst row_key].
  destruct (bool_decide (k = key)); [reflexivity|exact IH].
Qed.

Lemma selectedItem_id (forest : list HierarchyItem)
    (selection : option jsstring) (item : HierarchyItem) :
  selectedItem forest selection = Some item →
  selection = Some (getItemId item) ∧ item ∈ preorder forest.
Proof.
  destruct selection as [id|]; [|discriminate].
  rewrite selectedItem_find. intros H. apply find_some in H as [Hin Hid].
  apply bool_decide_eq_true_1 in Hid. split; [by rewrite Hid|].
  by apply list_elem_of_In.
Qed.

Lemma panelChange_spec (key : jsstring) (v : jsval) (w : World) :
  panelChange descend components key v w
  = match selectedItem (nodeTree w) (selectedItemId w) with
    | Some item =>
        if editable (lookupComponentInfo components (component (nodeInfo item))) key
        then handleChange descend item key v w
        else w
    | None => w
    end.
Proof.
  unfold panelChange, propertyPanel, NodeEditor, editable.
  destruct (selectedItem (nodeTree w) (selectedItemId w)) as [item|]; [|reflexivity].
  rewrite find_row.
  destruct (find _ (properties _)) as [[k p]|] eqn:Hf; [|reflexivity].
  apply find_some in Hf as [_ Hk]. apply bool_decide_eq_true_1 in Hk.
  simpl in Hk. subst k. destruct p as [[E|]]; reflexivity.
Qed.
End Panel.

(** [X17] A change in the panel reaches the persistence interface only
    for the node that the selection resolves to, and only through a
    registered property with an editor: then exactly one call is added,
    for that item and that key, and the item is in the current forest with
    the selected identity. With nothing selected, a stale selection, an
    unregistered property or a property without editor, nothing is saved.
    The tree and the selection stay as they are. *)
Theorem panelChange_saves_for_selection
    (descend : path → jsval → jsval → diffs)
    (components : gmap ComponentRef ComponentInfo)
    (key : jsstring) (v : jsval) (w : World) :
  let w' := panelChange descend components key v w in
  nodeTree w' = nodeTree w
  ∧ selectedItemId w' = selectedItemId w
  ∧ match selectedItem (nodeTree w) (selectedItemId w) with
    | Some item =>
        if editable (lookupComponentInfo components (component (nodeInfo item))) key
        then saved w' = saved w ++ [edit_call descend item key v]
             ∧ selectedItemId w = Some (getItemId item)
             ∧ item ∈ preorder (nodeTree w)
        else saved w' = saved w
    | None => saved w' = saved w
    end.
Proof.
  intros w'. subst w'. rewrite panelChange_spec.
  destruct (selectedItem (nodeTree w) (selectedItemId w)) as [item|] eqn:Hsel;
    [|done].
  destruct (editable _ key); [|done].
  destruct (selectedItem_id _ _ _ Hsel) as [Hid Hin].
  repeat split; assumption.
Qed.

Section Run.
Variable modules : gmap jsstring ModuleInfo.
Variable descend : path → jsval → jsval → diffs.
Variable components : gmap ComponentRef ComponentInfo.

Lemma act_frame (a : Action) (w : World) :
  nodeTree (act modules descend components a w) = forest_after modules [a] (nodeTree w)
  ∧ selectedItemId (act modules descend components a w)
    = selection_after [a] (selectedItemId w)
  ∧ ∃ calls, saved (act modules descend components a w) = saved w ++ calls
             ∧ (length calls ≤ 1)%nat
             ∧ (calls ≠ [] → is_edit a = true).
Proof.
  destruct a as [canvas|item|key v]; simpl.
  - unfold onMutation. destruct (findNodes modules canvas) as [f|e]; simpl;
      (split; [reflexivity|]; split; [reflexivity|]);
      exists []; rewrite app_nil_r; repeat split; simpl; try lia; done.
  - split; [reflexivity|]. split; [reflexivity|].
    exists []. rewrite app_nil_r. repeat split; simpl; try lia; done.
  - rewrite panelChange_spec.
    destruct (selectedItem (nodeTree w) (selectedItemId w)) as [item|];
      [destruct (editable _ key)|]; simpl;
      (split; [reflexivity|]; split; [reflexivity|]).
    + eexists [_]. repeat split; simpl; eauto.
    + exists []. rewrite app_nil_r. repeat split; simpl; try lia; done.
    + exists []. rewrite app_nil_r. repeat split; simpl; try lia; done.
Qed.
End Run.

(** [X18] Over any series of mutations, selections and changes the three
    parts of the state go their own ways. The tree is the forest of the
    last mutation whose rebuild succeeded (a failed rebuild keeps the tree
    before it), whatever was selected or edited. The selection is the last
    one made: rebuilds never clear or change it. The calls to the
    persistence interface only grow, by at most one call per change in the
    panel, and mutations and selections add none. *)
Theorem run_frames (modules : gmap jsstring ModuleInfo)
    (descend : path → jsval → jsval → diffs)
    (components : gmap ComponentRef ComponentInfo)
    (actions : list Action) (w : World) :
  let w' := run modules descend components actions w in
  nodeTree w' = forest_after modules actions (nodeTree w)
  ∧ selectedItemId w' = selection_after actions (selectedItemId w)
  ∧ ∃ calls,
      saved w' = saved w ++ calls
      ∧ (length calls
         ≤ length (filter (λ a, is_edit a = true) actions))%nat.
Proof.
  intros w'. subst w'. unfold run. revert w.
  induction actions as [|a actions IH]; intros w.
  - simpl. repeat split. exists []. by rewrite app_nil_r.
  - cbn [fold_left].
    destruct (act_frame modules descend components a w)
      as (Ht & Hs & calls & Hc & Hlen & Hed).
    destruct (IH (act modules descend components a w)) as (Ht' & Hs' & calls' & Hc' & Hlen').
    unfold forest_after, selection_after in *. cbn [fold_left] in *.
    rewrite Ht', Hs', Ht, Hs. split; [reflexivity|]. split; [reflexivity|].
    exists (calls ++ calls'). rewrite Hc', Hc, app_assoc. split; [reflexivity|].
    rewrite length_app, filter_cons.
    destruct (decide (is_edit a = true)) as [|Hno]; simpl; [lia|].
    destruct calls as [|c calls]; [simpl; lia|].
    exfalso. apply Hno, Hed. discriminate.
Qed.

(** ** The canvas without its scaffolding *)

Section Strip.
Variable modules : gmap jsstring ModuleInfo.

Lemma strip_node_HTMLElement (attrs : list (jsstring * jsstring))
    (childNodes : list ChildNode) :
  strip_node (HTMLElement attrs childNodes) =
    match markers attrs with
    | Some _ => [HTMLElement attrs (strip childNodes)]
    | None => strip childNodes
    end.
Proof. reflexivity. Qed.

Lemma subtree_HTMLElement (attrs : list (jsstring * jsstring))
    (childNodes : list ChildNode) :
  subtree (HTMLElement attrs childNodes)
  = HTMLElement attrs childNodes :: all_nodes childNodes.
Proof. reflexivity. Qed.

Lemma all_nodes_app (a b : list ChildNode) :
  all_nodes (a ++ b) = all_nodes a ++ all_nodes b.
Proof.
  induction a as [|e a IH]; simpl; [reflexivity|]. by rewrite IH, app_assoc.
Qed.

Lemma findNodes_strip_of_visit (elms : list ChildNode) :
  Forall (λ e, findNodes modules (strip_node e) = visit modules e) elms →
  findNodes modules (strip elms) = findNodes modules elms.
Proof.
  induction 1 as [|e elms He _ IH]; [reflexivity|].
  cbn [strip findNodes]. by rewrite findNodes_append, He, IH.
Qed.

Lemma findNodes_strip_node :
  ∀ elm, findNodes modules (strip_node elm) = visit modules elm.
Proof.
  fix IH 1. intros [attrs kids|attrs kids|data]; [|reflexivity..].
  assert (Hkids : findNodes modules (strip kids) = findNodes modules kids).
  { apply findNodes_strip_of_visit.
    induction kids as [|k kids IHk]; constructor; [apply IH|apply IHk]. }
  rewrite strip_node_HTMLElement, visit_HTMLElement.
  destruct (markers attrs) as [[m n]|] eqn:Hm; [|exact Hkids].
  cbn [findNodes]. rewrite visit_HTMLElement, Hm, Hkids.
  destruct (invariant _ _ _) as [info|]; [|reflexivity]. simpl.
  destruct (findNodes modules kids) as [ch|]; reflexivity.
Qed.

Lemma strip_all_marked_of_node (elms : list ChildNode) :
  Forall (λ e, Forall (λ node, is_marked_HTMLElement node = true)
                 (all_nodes (strip_node e))) elms →
  Forall (λ node, is_marked_HTMLElement node = true) (all_nodes (strip elms)).
Proof.
  induction 1 as [|e elms He _ IH]; [constructor|].
  cbn [strip]. rewrite all_nodes_app. by apply Forall_app.
Qed.

Lemma strip_node_all_marked :
  ∀ elm, Forall (λ node, is_marked_HTMLElement node = true)
           (all_nodes (strip_node elm)).
Proof.
  fix IH 1. intros [attrs kids|attrs kids|data]; [|constructor..].
  assert (Hkids : Forall (λ node, is_marked_HTMLElement node = true)
                    (all_nodes (strip kids))).
  { apply strip_all_marked_of_node.
    induction kids as [|k kids IHk]; constructor; [apply IH|apply IHk]. }
  rewrite strip_node_HTMLElement.
  destruct (markers attrs) as [mn|] eqn:Hm; [|exact Hkids].
  cbn [all_nodes]. rewrite app_nil_r, subtree_HTMLElement.
  constructor; [|exact Hkids].
  simpl. rewrite Hm. by apply bool_decide_eq_true_2.
Qed.
End Strip.

(** [X19] Scaffolding can be taken out of the canvas without any effect on
    the rebuild: with the unmarked [HTMLElement]s replaced by their
    children and the nodes that are not [HTMLElement]s removed, so that only
    marked [HTMLElement]s are left at every depth, [findNodes] returns the
    same forest, or throws the same error. *)
Theorem findNodes_strip (modules : gmap jsstring ModuleInfo)
    (canvas : list ChildNode) :
  findNodes modules (strip canvas) = findNodes modules canvas
  ∧ Forall (λ node, is_marked_HTMLElement node = true) (all_nodes (strip canvas)).
Proof.
  split.
  - apply findNodes_strip_of_visit, Forall_forall. intros e _.
    apply findNodes_strip_node.
  - apply strip_all_marked_of_node, Forall_forall. intros e _.
    apply strip_node_all_marked.
Qed.

Example strip_wrapper :
  strip [Examples.wrapper; Examples.svg_wrapper]
  = [ HTMLElement (Examples.marked "n1") [];
      HTMLElement (Examples.marked "n2") [] ].
Proof. vm_compute. reflexivity. Qed.
